(** * Open-set wildlife classification: staged training algorithms

    A shallow embedding of the numeric core of the repository
    ([src/algorithms/plain_stage_1.py], [stage_1_memory.py],
    [stage_2_fixmatch_ema.py], [stage_2_pslabel_ldam.py] and
    [src/data/CCT.py]) together with the properties its specification
    states about it.

    Conventions of the embedding:
    - a float tensor entry is a real number ([R]); one-dimensional tensors
      are [list R], a batch of rows is [list (list R)];
    - integer tensors (class ids, with the sentinel [-1]) are [Z]; counts,
      sizes and positions are [nat];
    - an operation that raises in Python (index out of range, shapes that
      do not broadcast, [StopIteration] leaving a function) or that yields
      no defined number (a mean over nothing, a division by a zero count)
      returns [None];
    - the network itself ([net.feature], [net.classifier]) is opaque: the
      functions below take its outputs, or the extractor as a parameter. *)

From Stdlib Require Import Reals Lra Lia ZArith.
From stdpp Require Import gmap strings list sorting.

Local Open Scope R_scope.

(** ** Tensors *)

Module Tensor.

(** [x.sum()] *)
Definition tsum (xs : list R) : R := foldr Rplus 0 xs.

(** [torch.softmax(x, dim=-1)] on one row. *)
Definition softmax (logits : list R) : list R :=
  let es := map exp logits in
  map (fun e => e / tsum es) es.

(** The scan behind [x.max(dim=-1)]: [m] is the largest entry met so far,
    [a] its position, [i] the position of the head of [xs]. *)
Fixpoint max_from (m : R) (a i : nat) (xs : list R) : R * nat :=
  match xs with
  | [] => (m, a)
  | x :: xs' =>
      if Rlt_dec m x then max_from x i (S i) xs' else max_from m a (S i) xs'
  end.

(** [values, indices = x.max(dim=-1)] on one row; an empty row raises. *)
Definition tmax (xs : list R) : option (R * Z) :=
  match xs with
  | [] => None
  | x :: xs' => let '(m, a) := max_from x 0 1 xs' in Some (m, Z.of_nat a)
  end.

(** [x.mean()]: not a number on an empty tensor. *)
Definition tmean (xs : list R) : option R :=
  match xs with
  | [] => None
  | _ => Some (tsum xs / INR (length xs))
  end.

(** Element-wise binary operation on two tensors of the same shape. *)
Definition pointwise (f : R -> R -> R) (xs ys : list R) : option (list R) :=
  if decide (length xs = length ys) then Some (zip_with f xs ys) else None.

(** [torch.norm(x, 2)] of one vector. *)
Definition norm2 (v : list R) : R := sqrt (tsum (map (fun x => x * x) v)).

(** What it means for [(m, a)] to be the maximum and an arg-max of [xs]. *)
Definition is_argmax (xs : list R) (a : Z) (m : R) : Prop :=
  exists n : nat, a = Z.of_nat n /\ xs !! n = Some m /\ Forall (fun x => x <= m) xs.

End Tensor.

(** ** Confidence gate
    [plain_stage_1.py], [PlainStage1.evaluate_epoch], and
    [stage_1_memory.py], [MemoryStage1.deploy_epoch]:
<<
    max_probs, preds = F.softmax(logits, dim=1).max(dim=1)
    preds[max_probs < self.args.theta] = -1
>> *)

Module ConfidenceGate.
Import Tensor.

(** One row of the batch: (max probability, arg-max), then the overwrite. *)
Definition gate_row (theta : R) (logits : list R) : option Z :=
  '(max_prob, pred) ← tmax (softmax logits);
  Some (if Rlt_dec max_prob theta then (-1)%Z else pred).

Definition confidence_gate (theta : R) (logits : list (list R)) : option (list Z) :=
  mapM (gate_row theta) logits.

End ConfidenceGate.

(** ** FixMatch consistency loss
    [stage_2_fixmatch_ema.py], [EMAFixMatchStage2.train_epoch]:
<<
    logits_l = logits[:batch_size]
    logits_u_w, logits_u_s = logits[batch_size:].chunk(2)
    pseudo_label = torch.softmax(logits_u_w.detach_(), dim=-1)
    max_probs, targets_u = torch.max(pseudo_label, dim=-1)
    mask = max_probs.ge(self.args.fixmatch_t).float()
    loss_l = self.net.criterion_cls(logits_l, labels_l)
    loss_u = (F.cross_entropy(logits_u_s, targets_u, reduction='none') * mask).mean()
    loss = loss_l + self.args.fixmatch_lambda * loss_u
>> *)

Module FixMatch.
Import Tensor.

(** [x.chunk(2)] along the batch dimension, unpacked into two names: the
    pieces hold ceil(n/2) rows and the rest; fewer than two rows give fewer
    than two pieces and the unpacking raises. *)
Definition chunk2 {A : Type} (xs : list A) : option (list A * list A) :=
  if decide (length xs < 2)%nat then None
  else let k := Nat.div2 (S (length xs)) in Some (take k xs, drop k xs).

(** [F.cross_entropy(logits, target, reduction='none')] for one example:
    minus the log of the softmax probability of the target class; a target
    outside the classes raises. *)
Definition cross_entropy_row (logits : list R) (target : Z) : option R :=
  if decide (0 <= target)%Z
  then p ← softmax logits !! Z.to_nat target; Some (- ln p)
  else None.

Definition cross_entropy_none (logits : list (list R)) (targets : list Z)
  : option (list R) :=
  if decide (length logits = length targets)
  then mapM (fun '(row, t) => cross_entropy_row row t) (zip logits targets)
  else None.

(** [max_probs.ge(t).float()] *)
Definition ge_mask (fixmatch_t : R) (max_probs : list R) : list R :=
  map (fun p => if Rge_dec p fixmatch_t then 1 else 0) max_probs.

Definition consistency_loss (fixmatch_t : R) (logits_u_w logits_u_s : list (list R))
  : option R :=
  pseudo ← mapM (fun row => tmax (softmax row)) logits_u_w;
  let max_probs := pseudo.*1 in
  let targets_u := pseudo.*2 in
  let mask := ge_mask fixmatch_t max_probs in
  ce ← cross_entropy_none logits_u_s targets_u;
  weighted ← pointwise Rmult ce mask;
  tmean weighted.

(** The loss of one training step, from the logits of the concatenated
    batch and the labeled loss [loss_l]. *)
Definition step_loss (fixmatch_t fixmatch_lambda : R) (batch_size : nat)
    (logits : list (list R)) (loss_l : R) : option R :=
  '(logits_u_w, logits_u_s) ← chunk2 (drop batch_size logits);
  loss_u ← consistency_loss fixmatch_t logits_u_w logits_u_s;
  Some (loss_l + fixmatch_lambda * loss_u).

(** The specification's reading of the loss.  [xent row a] is the
    cross-entropy of one row of logits against class [a]; [masked_mean]
    adds the cross-entropies of the selected examples and divides by the
    size of the whole batch. *)
Definition xent (row : list R) (a : Z) : R :=
  - ln (nth (Z.to_nat a) (softmax row) 0).

Definition masked_mean (selected : R -> bool) (pseudo : list (R * Z))
    (logits_u_s : list (list R)) : R :=
  tsum (zip_with (fun '(m, a) row => if selected m then xent row a else 0)
          pseudo logits_u_s)
  / INR (length logits_u_s).

(** "exceeds the threshold" and "is at least the threshold". *)
Definition exceeds (t m : R) : bool := if Rgt_dec m t then true else false.
Definition reaches (t m : R) : bool := if Rge_dec m t then true else false.

End FixMatch.

(** ** Class counts of a dataset *)

Module Dataset.

(** [np.unique(labels)]: the labels in increasing order, each once. *)
Definition unique (labels : list nat) : list nat :=
  merge_sort le (remove_dups labels).

Definition count_of (c : nat) (labels : list nat) : nat :=
  length (filter (fun l => l = c) labels).

(** [np.unique(labels, return_counts=True)] *)
Definition unique_counts (labels : list nat) : list nat * list nat :=
  let u := unique labels in (u, map (fun c => count_of c labels) u).

(** Modelled from the spec: [BaseDataset.class_counts_cal] is not among the
    sources.  The data provider "exposes a class-count query over its
    current contents" whose results are "the set of classes present" and
    the "per-class example counts"; its callers name the two results
    [loader_uni_class] and [eval_class_counts] ("unique classes in the
    loader and corresponding counts").  It is the pair of the classes
    present, in increasing order, and the number of examples of each. *)
Definition class_counts_cal (labels : list nat) : list nat * list nat :=
  unique_counts labels.

End Dataset.

(** ** Centroid calibration
    [stage_1_memory.py], [MemoryStage1.centroids_cal]:
<<
    centroids = torch.zeros(len(class_indices[...]), self.net.feature_dim)
    for data, labels in loader:
        feats = self.net.feature(data)
        for i in range(len(labels)):
            label = labels[i]
            centroids[label] += feats[i]
    _, loader_class_counts = loader.dataset.class_counts_cal()
    centroids /= torch.tensor(loader_class_counts).float().unsqueeze(1)
>>
    A loader is the list of its batches, a batch the list of its examples
    with their labels; the dataset behind the loader holds the examples of
    all batches. *)

Module Centroids.
Import Tensor Dataset.

Section WithExtractor.
Context {X : Type}.

(** [self.net.feature] on one example (the network is in [eval] mode, so
    an example's features do not depend on its batch). *)
Variable feature : X -> list R.

(** [centroids[label] += feats[i]]: the row must exist and have the width
    of the feature vector. *)
Definition accumulate (centroids : list (list R)) (label : nat) (feat : list R)
  : option (list (list R)) :=
  row ← centroids !! label;
  row' ← pointwise Rplus row feat;
  Some (<[label := row']> centroids).

Fixpoint accumulate_batch (centroids : list (list R)) (batch : list (X * nat))
  : option (list (list R)) :=
  match batch with
  | [] => Some centroids
  | (x, label) :: rest =>
      centroids' ← accumulate centroids label (feature x);
      accumulate_batch centroids' rest
  end.

Fixpoint accumulate_loader (centroids : list (list R)) (loader : list (list (X * nat)))
  : option (list (list R)) :=
  match loader with
  | [] => Some centroids
  | batch :: rest =>
      centroids' ← accumulate_batch centroids batch;
      accumulate_loader centroids' rest
  end.

(** One row divided by one count; a zero count gives no defined number. *)
Definition row_div (row : list R) (n : nat) : option (list R) :=
  if decide (n = 0%nat) then None else Some (map (fun x => x / INR n) row).

(** [centroids /= counts.unsqueeze(1)], in place: a (C, D) table divided
    by a (K, 1) column.  The shapes broadcast to (C, D) only when K = C
    (row by row) or K = 1 (every row by the one count). *)
Definition divide_rows (centroids : list (list R)) (counts : list nat)
  : option (list (list R)) :=
  if decide (length counts = length centroids)
  then mapM (fun '(row, n) => row_div row n) (zip centroids counts)
  else match counts with
       | [n] => mapM (fun row => row_div row n) centroids
       | _ => None
       end.

Definition centroids_cal (num_cls feature_dim : nat) (loader : list (list (X * nat)))
  : option (list (list R)) :=
  let centroids := replicate num_cls (replicate feature_dim 0) in
  summed ← accumulate_loader centroids loader;
  let '(_, loader_class_counts) := class_counts_cal (concat loader).*2 in
  divide_rows summed loader_class_counts.

(** The specification's centroid of class [c]: the mean of the feature
    vectors of the labeled examples of that class. *)
Definition class_features (c : nat) (examples : list (X * nat)) : list (list R) :=
  map (fun e => feature e.1) (filter (fun e => e.2 = c) examples).

Definition vsum (dim : nat) (vs : list (list R)) : list R :=
  foldl (zip_with Rplus) (replicate dim 0) vs.

Definition class_mean (dim : nat) (c : nat) (examples : list (X * nat)) : list R :=
  map (fun x => x / INR (count_of c examples.*2)) (vsum dim (class_features c examples)).

End WithExtractor.
End Centroids.

(** ** Reachability rescaling
    [stage_1_memory.py], [MemoryStage1.deploy_epoch]:
<<
    feats_expand = feats.clone().unsqueeze(1).expand(-1, len(self.centroids), -1)
    centroids_expand = self.centroids.clone().unsqueeze(0).expand(len(data), -1, -1)
    dist_to_centroids = torch.norm(feats_expand - centroids_expand, 2, 2)
    values_nn, labels_nn = torch.sort(dist_to_centroids, 1)
    reachability = (self.args.reachability_scale / values_nn[:, 0]).unsqueeze(1).expand(-1, logits.shape[1])
    logits = reachability * logits
    max_probs, preds = F.softmax(logits, dim=1).max(dim=1)
    preds[max_probs < self.args.theta] = -1
>> *)

Module Reachability.
Import Tensor ConfidenceGate.

#[export] Instance Rle_decision : RelDecision Rle := Rle_dec.

(** Distance from one feature vector to one centroid. *)
Definition dist (feat centroid : list R) : option R :=
  d ← pointwise Rminus feat centroid; Some (norm2 d).

(** One row of [dist_to_centroids]. *)
Definition dist_to_centroids (centroids : list (list R)) (feat : list R)
  : option (list R) :=
  mapM (dist feat) centroids.

(** [values_nn] of [torch.sort(., 1)]: the row in increasing order. *)
Definition sort_values (row : list R) : list R := merge_sort Rle row.

(** One example: [values_nn[i, 0]] (no centroid at all: index error), the
    reachability, and the scaled logits.  A nearest distance of 0 makes the
    quotient infinite (and its products infinite or not a number): no
    defined number, so no result here. *)
Definition reachability_row (reachability_scale : R) (centroids : list (list R))
    (feat logits : list R) : option (list R) :=
  dists ← dist_to_centroids centroids feat;
  nearest ← sort_values dists !! 0%nat;
  if Req_dec_T nearest 0 then None
  else
    let reachability := reachability_scale / nearest in
    Some (map (fun l => reachability * l) logits).

Definition calibrate (reachability_scale : R) (centroids feats logits : list (list R))
  : option (list (list R)) :=
  if decide (length feats = length logits)
  then mapM (fun '(f, l) => reachability_row reachability_scale centroids f l)
         (zip feats logits)
  else None.

(** The logits and predictions [deploy_epoch] records for one batch. *)
Definition deploy_batch (reachability_scale theta : R)
    (centroids feats logits : list (list R)) : option (list (list R) * list Z) :=
  logits' ← calibrate reachability_scale centroids feats logits;
  preds ← confidence_gate theta logits';
  Some (logits', preds).

(** [d] is the smallest Euclidean distance from [feat] to a row of the
    centroid table. *)
Definition is_min_dist (centroids : list (list R)) (feat : list R) (d : R) : Prop :=
  (exists c, c ∈ centroids /\ d = norm2 (zip_with Rminus feat c)) /\
  (forall c, c ∈ centroids -> d <= norm2 (zip_with Rminus feat c)).

End Reachability.

(** ** EMA teacher
    [stage_2_fixmatch_ema.py], class [ModelEMA]:
<<
    def __init__(self, lr, wdecay, model, decay):
        self.ema = copy.deepcopy(model).cuda()
        self.decay = decay
        self.wd = lr * wdecay
        self.ema_has_module = hasattr(self.ema, 'module')

    def update(self, model):
        needs_module = hasattr(model, 'module') and not self.ema_has_module
        with torch.no_grad():
            msd = model.state_dict()
            for k, ema_v in self.ema.state_dict().items():
                if needs_module:
                    k = 'module.' + k
                model_v = msd[k].detach().cuda()
                ema_v.copy_(ema_v * self.decay + (1. - self.decay) * model_v)
                # weight decay
                if 'bn' not in k:
                    msd[k] = msd[k] * (1. - self.wd)
>>
    Tensors are objects: a heap (a list, addressed by position) holds their
    values, and a network names the addresses of its tensors.
    [state_dict()] builds a new dictionary from names to the same tensor
    objects; [copy_] writes into an existing tensor; [*] builds a new
    one. *)

Module EMA.
Import Tensor.

(** An [nn.Module]: whether it has a [module] attribute (a parallel
    wrapper), and the entries of its state dictionary in order. *)
Record Net := {
  has_module : bool;
  entries : list (string * nat)
}.

(** [model.state_dict()]: a fresh dictionary sharing the tensors. *)
Definition state_dict (model : Net) : gmap string nat := list_to_map (entries model).

Record ModelEMA := {
  ema : Net;
  decay : R;
  wd : R;
  ema_has_module : bool
}.

(** [copy.deepcopy(model)]: every tensor is copied to a new address. *)
Fixpoint deepcopy_entries (es : list (string * nat)) (h : list (list R))
  : option (list (string * nat) * list (list R)) :=
  match es with
  | [] => Some ([], h)
  | (k, l) :: rest =>
      v ← h !! l;
      '(rest', h') ← deepcopy_entries rest (h ++ [v]);
      Some ((k, length h) :: rest', h')
  end.

Definition init (lr wdecay : R) (model : Net) (decay : R) (h : list (list R))
  : option (ModelEMA * list (list R)) :=
  '(copy, h') ← deepcopy_entries (entries model) h;
  Some ({| ema := {| has_module := has_module model; entries := copy |};
           decay := decay;
           wd := lr * wdecay;
           ema_has_module := has_module model |}, h').

(** ['bn' in k] *)
Fixpoint contains (needle hay : string) : bool :=
  String.prefix needle hay ||
  match hay with
  | EmptyString => false
  | String _ hay' => contains needle hay'
  end.

(** The name looked up in the student's dictionary. *)
Definition key (needs_module : bool) (k : string) : string :=
  if needs_module then "module." +:+ k else k.

(** The body of the loop of [update], over the items of the teacher's
    state dictionary; [msd] is the local dictionary, [h] the heap. *)
Fixpoint update_items (decay wd : R) (needs_module : bool)
    (items : list (string * nat)) (msd : gmap string nat) (h : list (list R))
  : option (gmap string nat * list (list R)) :=
  match items with
  | [] => Some (msd, h)
  | (k0, ema_loc) :: rest =>
      let k := key needs_module k0 in
      model_loc ← msd !! k;
      model_v ← h !! model_loc;
      ema_v ← h !! ema_loc;
      new_v ← pointwise Rplus (map (fun x => x * decay) ema_v)
                              (map (fun x => (1 - decay) * x) model_v);
      let h1 := <[ema_loc := new_v]> h in
      if contains "bn" k then update_items decay wd needs_module rest msd h1
      else
        cur_loc ← msd !! k;
        cur ← h1 !! cur_loc;
        let decayed := map (fun x => x * (1 - wd)) cur in
        update_items decay wd needs_module rest
          (<[k := length h1]> msd) (h1 ++ [decayed])
  end.

(** [update]: the dictionary [msd] is local and is dropped on return; what
    remains is the heap. *)
Definition update (self : ModelEMA) (model : Net) (h : list (list R))
  : option (list (list R)) :=
  let needs_module := has_module model && negb (ema_has_module self) in
  let msd := state_dict model in
  '(_, h') ← update_items (decay self) (wd self) needs_module
               (entries (ema self)) msd h;
  Some h'.

(** The value of a network's tensor [k] in a heap. *)
Definition weight (h : list (list R)) (model : Net) (k : string) : option (list R) :=
  l ← state_dict model !! k; h !! l.

(** The moving average of the specification, entry by entry. *)
Definition moving_average (d : R) (w_ema w_student : list R) : list R :=
  zip_with (fun e m => d * e + (1 - d) * m) w_ema w_student.

(** A teacher set up for a student in heap [h]: the teacher's names and
    tensors are pairwise distinct, and each teacher tensor has a student
    tensor of its name and shape which is not a teacher tensor (the
    teacher is a deep copy). *)
Definition paired (self : ModelEMA) (model : Net) (h : list (list R)) : Prop :=
  let needs_module := has_module model && negb (ema_has_module self) in
  let items := entries (ema self) in
  NoDup items.*1 /\ NoDup items.*2 /\
  Forall (fun it =>
            exists lm ev mv,
              state_dict model !! key needs_module it.1 = Some lm /\
              (lm ∉ items.*2) /\
              h !! lm = Some mv /\ h !! it.2 = Some ev /\
              length ev = length mv) items.

End EMA.

(** ** Stage-1 training loop
    [plain_stage_1.py], [PlainStage1.train]:
<<
    best_f1 = 0.
    for epoch in range(self.num_epochs):
        self.train_epoch(epoch)
        val_f1 = self.evaluate(self.valloader)
        if val_f1 > best_f1:
            self.net.update_best()
    self.save_model()
>>
    and its sibling [EMAFixMatchStage2.train] in [stage_2_fixmatch_ema.py]:
<<
    best_acc = 0.
    for epoch in range(self.num_epochs):
        self.train_epoch(epoch)
        val_acc_mac = self.evaluate(self.valloader, ood=False)
        if val_acc_mac > best_acc:
            self.net.update_best()
            best_acc = val_acc_mac
            best_epoch = epoch
            self.save_ema_model()
    self.save_model()
>>
    Training and evaluation are opaque: [evaluate epoch] is the validation
    score measured after the training of [epoch].  A run is the list of
    the calls it makes. *)

Module Stage1Train.

Inductive event :=
| TrainEpoch (epoch : nat)
| Evaluate (epoch : nat)
| UpdateBest (epoch : nat)
| SaveEmaModel (epoch : nat)
| SaveModel.

(** The loop of [PlainStage1.train]; [best_f1] is the local variable,
    which no statement of the loop assigns. *)
Fixpoint train_loop (evaluate : nat -> R) (best_f1 : R) (epochs : list nat)
  : list event :=
  match epochs with
  | [] => []
  | epoch :: rest =>
      let val_f1 := evaluate epoch in
      [TrainEpoch epoch; Evaluate epoch]
      ++ (if Rgt_dec val_f1 best_f1 then [UpdateBest epoch] else [])
      ++ train_loop evaluate best_f1 rest
  end.

Definition train (num_epochs : nat) (evaluate : nat -> R) : list event :=
  train_loop evaluate 0 (seq 0 num_epochs) ++ [SaveModel].

(** The loop of [EMAFixMatchStage2.train], which does assign [best_acc]. *)
Fixpoint fixmatch_train_loop (evaluate : nat -> R) (best_acc : R) (epochs : list nat)
  : list event :=
  match epochs with
  | [] => []
  | epoch :: rest =>
      let val_acc_mac := evaluate epoch in
      [TrainEpoch epoch; Evaluate epoch]
      ++ (if Rgt_dec val_acc_mac best_acc
          then [UpdateBest epoch; SaveEmaModel epoch]
               ++ fixmatch_train_loop evaluate val_acc_mac rest
          else fixmatch_train_loop evaluate best_acc rest)
  end.

Definition fixmatch_train (num_epochs : nat) (evaluate : nat -> R) : list event :=
  fixmatch_train_loop evaluate 0 (seq 0 num_epochs) ++ [SaveModel].

(** The specification's condition for a snapshot in [epoch]: the score
    exceeds the best score of all previous epochs (the initial best is 0). *)
Definition best_before (evaluate : nat -> R) (epoch : nat) : R :=
  foldr Rmax 0 (map evaluate (seq 0 epoch)).

Definition improves (evaluate : nat -> R) (epoch : nat) : Prop :=
  evaluate epoch > best_before evaluate epoch.

End Stage1Train.

(** ** Imbalance reweighter
    [stage_2_pslabel_ldam.py], [LDAMSemiStage2.train]:
<<
    idx = 0
    betas = [0.9999]
    effective_num = 1.0 - np.power(betas[idx], self.train_annotation_counts)
    per_cls_weights = (1.0 - betas[idx]) / np.array(effective_num)
    per_cls_weights = per_cls_weights / np.sum(per_cls_weights) * len(self.train_annotation_counts)
>> *)

Module Reweighter.
Import Tensor.

Definition betas : list R := [0.9999].

(** The three assignments, for any beta. *)
Definition per_cls_weights_for (beta : R) (train_annotation_counts : list nat) : list R :=
  let effective_num := map (fun n => 1 - beta ^ n) train_annotation_counts in
  let per_cls_weights := map (fun e => (1 - beta) / e) effective_num in
  map (fun w => w / tsum per_cls_weights * INR (length train_annotation_counts))
    per_cls_weights.

(** The weights of the code: [betas[idx]] with [idx = 0]. *)
Definition per_cls_weights (train_annotation_counts : list nat) : option (list R) :=
  beta ← betas !! 0%nat;
  Some (per_cls_weights_for beta train_annotation_counts).

End Reweighter.

(** ** Drawing the batches of a Stage-2 epoch
    [stage_2_fixmatch_ema.py], [EMAFixMatchStage2.train_epoch]:
<<
    iter_l = iter(loader_l)
    iter_u = iter(loader_u)
    N = self.train_iterations
    for batch_idx in range(N):
        data_l, labels_l = next(iter_l)
        try:
            (data_u_w, data_u_s), labels_u = next(iter_u)
        except StopIteration:
            iter_u = iter(loader_u)
            (data_u_w, data_u_s), labels_u = next(iter_u)
>>
    A loader is the list of its batches and an iterator the list of the
    batches still to come; [None] is a [StopIteration] that leaves
    [train_epoch]. *)

Module Batches.

Definition next {B : Type} (it : list B) : option (B * list B) :=
  match it with
  | [] => None
  | b :: it' => Some (b, it')
  end.

(** The [try] / [except StopIteration] statement. *)
Definition next_unlabeled {B : Type} (loader_u iter_u : list B) : option (B * list B) :=
  match next iter_u with
  | Some r => Some r
  | None => next loader_u
  end.

(** The batches drawn in [N] steps. *)
Fixpoint draw {A B : Type} (N : nat) (loader_u : list B) (iter_l : list A)
    (iter_u : list B) : option (list (A * B)) :=
  match N with
  | O => Some []
  | S n =>
      '(batch_l, iter_l') ← next iter_l;
      '(batch_u, iter_u') ← next_unlabeled loader_u iter_u;
      rest ← draw n loader_u iter_l' iter_u';
      Some ((batch_l, batch_u) :: rest)
  end.

Definition train_epoch_batches {A B : Type} (train_iterations : nat)
    (loader_l : list A) (loader_u : list B) : option (list (A * B)) :=
  draw train_iterations loader_u loader_l loader_u.

End Batches.

(** ** Per-class cap of the cropped dataset
    [CCT.py], [CCT_CROP.data_split]:
<<
    self.data = np.array(self.data)
    self.labels = np.array(self.labels)
    self.bbox = np.array(self.bbox)
    data_sel = np.empty(shape=0)
    labels_sel = np.empty(shape=0)
    bbox_sel = np.empty(shape=(0, self.bbox.shape[1]))
    unique_labels, unique_counts = np.unique(self.labels, return_counts=True)
    for label, counts in zip(unique_labels, unique_counts):
        data_cat = self.data[self.labels == label]
        labels_cat = self.labels[self.labels == label]
        bbox_cat = self.bbox[self.labels == label]
        if counts > self.split:
            np.random.seed(label)
            indices_sel = np.random.choice(np.arange(len(data_cat)), self.split, replace=False)
            data_sel = np.concatenate((data_sel, data_cat[indices_sel]))
            labels_sel = np.concatenate((labels_sel, labels_cat[indices_sel]))
            bbox_sel = np.concatenate((bbox_sel, bbox_cat[indices_sel]))
        else:
            data_sel = np.concatenate((data_sel, data_cat))
            labels_sel = np.concatenate((labels_sel, labels_cat))
            bbox_sel = np.concatenate((bbox_sel, bbox_cat))
    self.data = list(data_sel)
    self.labels = list(labels_sel.astype(int))
    self.bbox = list(bbox_sel)
>> *)

Module CCT.
Import Dataset.

(** The three parallel lists of a [CCT_CROP] dataset: image ids, class
    ids and bounding boxes (rows of four numbers). *)
Record dataset := {
  data : list string;
  labels : list nat;
  bbox : list (list R)
}.

(** [xs[labels == label]]: the entries of [xs] at the positions where
    [labels] holds [label] (the two have the same length). *)
Definition select_where {A : Type} (labels : list nat) (label : nat) (xs : list A)
  : list A :=
  (filter (fun p => p.1 = label) (zip labels xs)).*2.

(** [xs[indices]]: an index outside [xs] raises. *)
Definition take_indices {A : Type} (xs : list A) (indices : list nat)
  : option (list A) :=
  mapM (fun i => xs !! i) indices.

Section WithChoice.

(** [choice seed n k] is the result of
    [np.random.seed(seed); np.random.choice(np.arange(n), k, replace=False)]:
    the generator is outside the embedding. *)
Variable choice : nat -> nat -> nat -> list nat.

(** The loop over [zip(unique_labels, unique_counts)]; [sel] holds
    [data_sel], [labels_sel] and [bbox_sel]. *)
Fixpoint split_classes (split : nat) (d : dataset) (classes : list (nat * nat))
    (sel : dataset) : option dataset :=
  match classes with
  | [] => Some sel
  | (label, counts) :: rest =>
      let data_cat := select_where (labels d) label (data d) in
      let labels_cat := select_where (labels d) label (labels d) in
      let bbox_cat := select_where (labels d) label (bbox d) in
      if decide (split < counts)%nat then
        let indices_sel := choice label (length data_cat) split in
        data_new ← take_indices data_cat indices_sel;
        labels_new ← take_indices labels_cat indices_sel;
        bbox_new ← take_indices bbox_cat indices_sel;
        split_classes split d rest
          {| data := data sel ++ data_new;
             labels := labels sel ++ labels_new;
             bbox := bbox sel ++ bbox_new |}
      else
        split_classes split d rest
          {| data := data sel ++ data_cat;
             labels := labels sel ++ labels_cat;
             bbox := bbox sel ++ bbox_cat |}
  end.

(** [data_split]: the masks need three lists of one length, and
    [self.bbox.shape[1]] needs at least one bounding box. *)
Definition data_split (split : nat) (d : dataset) : option dataset :=
  if decide (length (data d) = length (labels d) /\ length (bbox d) = length (labels d))
  then
    match bbox d with
    | [] => None
    | _ :: _ =>
        let '(unique_labels, unique_counts) := unique_counts (labels d) in
        split_classes split d (zip unique_labels unique_counts)
          {| data := []; labels := []; bbox := [] |}
    end
  else None.

End WithChoice.

(** What the embedding assumes of the random choice: asked for [k] of [n]
    positions with [k <= n], it returns [k] distinct positions below [n]. *)
Definition choice_ok (choice : nat -> nat -> nat -> list nat) : Prop :=
  forall seed n k, (k <= n)%nat ->
    length (choice seed n k) = k /\ NoDup (choice seed n k) /\
    Forall (fun i => (i < n)%nat) (choice seed n k).

End CCT.

(** ** Evaluation forward pass of Stage 2
    [stage_2_fixmatch_ema.py], [EMAFixMatchStage2.evaluate_forward]:
<<
    for data, labels in tqdm(loader, total=len(loader)):
        if self.args.ema:
            feats = self.feature_ema.ema(data)
            logits = self.classifier_ema.ema(feats)
        else:
            feats = self.net.feature(data)
            logits = self.net.classifier(feats)
        max_probs, preds = F.softmax(logits, dim=1).max(dim=1)
        if ood:
            preds[max_probs < self.args.theta] = -1
        total_preds.append(preds.detach().cpu().numpy())
        total_labels.append(labels.detach().cpu().numpy())
        total_logits.append(logits.detach().cpu().numpy())
    return total_preds, total_labels, total_logits
>> *)

Module Stage2Eval.
Import Tensor.

Definition forward_row (ood : bool) (theta : R) (logits : list R) : option Z :=
  '(max_prob, pred) ← tmax (softmax logits);
  Some (if ood then (if Rlt_dec max_prob theta then (-1)%Z else pred) else pred).

Section WithNets.
Context {X : Type}.

(** The teacher and the student, from a batch of inputs to its logits. *)
Variables ema_net net : list X -> list (list R).

Definition evaluate_forward (ema ood : bool) (theta : R)
    (loader : list (list X * list Z))
  : option (list (list Z) * list (list Z) * list (list (list R))) :=
  batches ← mapM (fun '(data, labels) =>
                    let logits := if ema then ema_net data else net data in
                    preds ← mapM (forward_row ood theta) logits;
                    Some (preds, labels, logits)) loader;
  Some (batches.*1.*1, batches.*1.*2, batches.*2).

End WithNets.
End Stage2Eval.

(** ** The centroid file of the memory stage
    [stage_1_memory.py], [MemoryStage1.deploy], the part before the call
    of [deploy_epoch]:
<<
    centroids_path = self.weights_path.replace('.pth', '_centroids.npy')
    if os.path.exists(centroids_path):
        self.logger.info('Loading centroids from {}.\n'.format(centroids_path))
        cent_np = np.fromfile(centroids_path, dtype=np.float32).reshape(-1, self.net.feature_dim)
        self.centroids = torch.from_numpy(cent_np).cuda()
    else:
        self.logger.info('Calculating training data centroids.\n')
        self.centroids = self.centroids_cal(self.trainloader)
        self.centroids.clone().detach().cpu().numpy().tofile(centroids_path)
        self.logger.info('Centroids saved to {}.\n'.format(centroids_path))
>>
    The file system maps a path to the flat array of numbers stored
    there; the log lines are left out. The pass over the deployment
    loader that follows ([deploy_epoch] with its metric and the saving of
    the pseudo-labels) is not part of this module. *)

Module Deploy.
Import Tensor Centroids.

(** The first [n] rows of width [dim] of a flat array. *)
Fixpoint rows_of (n dim : nat) (flat : list R) : list (list R) :=
  match n with
  | O => []
  | S n' => take dim flat :: rows_of n' dim (drop dim flat)
  end.

(** [flat.reshape(-1, dim)]: the number of rows is inferred; it cannot be
    when [dim] is 0 or does not divide the size. *)
Definition reshape_rows (dim : nat) (flat : list R) : option (list (list R)) :=
  if decide (dim = 0%nat) then None
  else if decide (length flat mod dim = 0)%nat
       then Some (rows_of (length flat / dim) dim flat)
       else None.

Section WithNet.
Context {X : Type}.
Variable feature : X -> list R.

(** [self.centroids] after these lines, and the file system. *)
Definition load_centroids (centroids_path : string) (num_cls feature_dim : nat)
    (trainloader : list (list (X * nat))) (fs : gmap string (list R))
  : option (list (list R) * gmap string (list R)) :=
  match fs !! centroids_path with
  | Some flat =>
      centroids ← reshape_rows feature_dim flat;
      Some (centroids, fs)
  | None =>
      centroids ← centroids_cal feature num_cls feature_dim trainloader;
      Some (centroids, <[centroids_path := concat centroids]> fs)
  end.

End WithNet.
End Deploy.

(** ** Loading and reading the cropped dataset
    [CCT.py], [CCT_CROP.load_data], [CCT_CIS_CROP_S1.__init__] and
    [CCT_CROP.__getitem__]:
<<
    annotations = [entry for entry in ann_js['annotations']
                   if entry['category_id'] != 30 and entry['category_id'] != 33]
    for entry in annotations:
        if 'bbox' in entry:
            self.data.append(entry['image_id'])
            assert entry['category_id'] in self.class_indices.keys()
            self.labels.append(self.class_indices[entry['category_id']])
            self.bbox.append(entry['bbox'])
>>
<<
    self.load_data(ann_dir)
    if split is not None:
        self.data_split()
>>
<<
    file_id = self.data[index]
    label = self.labels[index]
    bbox = self.bbox[index]
    pil_bbox = (bbox[0], bbox[1], bbox[0] + bbox[2], bbox[1] + bbox[3])
    ...
    sample = Image.open(f).convert('RGB').crop(pil_bbox)
    sample = ImageOps.expand(sample, tuple((max(sample.size) - s) // 2 for s in list(sample.size)))
>> *)

Module CCTLoad.
Import Dataset CCT.

(** One entry of the annotation file; the bounding box is optional. *)
Record annotation := {
  image_id : string;
  category_id : nat;
  ann_bbox : option (list R)
}.

Definition kept (entry : annotation) : Prop :=
  category_id entry <> 30%nat /\ category_id entry <> 33%nat.

#[export] Instance kept_dec (entry : annotation) : Decision (kept entry).
Proof. unfold kept. apply _. Defined.

(** The loop over the annotations; a category that is no key of
    [class_indices] fails the assertion. *)
Fixpoint append_entries (class_indices : gmap nat nat) (annotations : list annotation)
    (d : dataset) : option dataset :=
  match annotations with
  | [] => Some d
  | entry :: rest =>
      match ann_bbox entry with
      | Some b =>
          label ← class_indices !! category_id entry;
          append_entries class_indices rest
            {| data := data d ++ [image_id entry];
               labels := labels d ++ [label];
               bbox := bbox d ++ [b] |}
      | None => append_entries class_indices rest d
      end
  end.

Definition load_data (class_indices : gmap nat nat) (ann_js : list annotation)
    (d : dataset) : option dataset :=
  append_entries class_indices (filter kept ann_js) d.

(** The constructor of a cropped dataset: load, then cap when [split] is
    given. *)
Definition init_crop (choice : nat -> nat -> nat -> list nat)
    (class_indices : gmap nat nat) (split : option nat) (ann_js : list annotation)
  : option dataset :=
  d ← load_data class_indices ann_js {| data := []; labels := []; bbox := [] |};
  match split with
  | Some s => data_split choice s d
  | None => Some d
  end.

(** The part of [__getitem__] before the image file is opened: the id,
    the label and the crop box (left, upper, right, lower). *)
Definition getitem_entry (d : dataset) (index : nat)
  : option (string * nat * (R * R * R * R)) :=
  file_id ← data d !! index;
  label ← labels d !! index;
  b ← bbox d !! index;
  b0 ← b !! 0%nat; b1 ← b !! 1%nat; b2 ← b !! 2%nat; b3 ← b !! 3%nat;
  Some (file_id, label, (b0, b1, b0 + b2, b1 + b3)).

(** The border handed to [ImageOps.expand] for an image of size [(w, h)],
    and the size of the expanded image (the two-entry border is added on
    the left and right, and on the top and bottom). *)
Definition expand_border (size : nat * nat) : nat * nat :=
  let m := Nat.max size.1 size.2 in
  ((m - size.1) / 2, (m - size.2) / 2)%nat.

Definition expanded_size (size : nat * nat) : nat * nat :=
  let border := expand_border size in
  (border.1 + size.1 + border.1, border.2 + size.2 + border.2)%nat.

(** The annotations [load_data] appends. *)
Definition loadable (ann_js : list annotation) : list annotation :=
  filter (fun e => is_Some (ann_bbox e)) (filter kept ann_js).

End CCTLoad.

(** ** Training loop of the margin-loss stage
    [stage_2_pslabel_ldam.py], [LDAMSemiStage2.train]:
<<
    best_epoch = 0
    best_acc = 0.
    for epoch in range(self.args.num_epochs):
        ... per_cls_weights ...
        self.net.criterion_cls_hard = LDAMLoss(cls_num_list=self.train_annotation_counts, max_m=0.3,
                                               s=30, weight=per_cls_weights).cuda()
        self.train_epoch(epoch, soft=(self.pseudo_labels_soft is not None))
        val_acc_mac = self.evaluate(self.valloader, ood=False)
        if val_acc_mac > best_acc:
            self.net.update_best()
            best_acc = val_acc_mac
            best_epoch = epoch
        self.logger.info('\nCurrrent Best Acc is {:.3f} at epoch {}...'.format(best_acc * 100, best_epoch))
    self.save_model()
    self.net.load_state_dict(copy.deepcopy(self.net.best_weights))
    self.pseudo_label_reset(self.trainloader_eval,
                            soft_reset=(self.pseudo_labels_soft is not None),
                            hard_reset=True)
>> *)

Module LDAMTrain.
Import Reweighter.

Inductive event :=
| SetCriterion (weights : option (list R))
| TrainEpoch (epoch : nat) (soft : bool)
| Evaluate (epoch : nat)
| UpdateBest (epoch : nat)
| ReportBest (best_acc : R) (best_epoch : nat)
| SaveModel
| LoadBestWeights
| PseudoLabelReset (soft_reset hard_reset : bool).

(** The loop: the calls made, and the final [best_acc] and [best_epoch]. *)
Fixpoint train_loop (train_annotation_counts : list nat) (soft : bool)
    (evaluate : nat -> R) (best_acc : R) (best_epoch : nat) (epochs : list nat)
  : list event * (R * nat) :=
  match epochs with
  | [] => ([], (best_acc, best_epoch))
  | epoch :: rest =>
      let val_acc_mac := evaluate epoch in
      let head := [SetCriterion (per_cls_weights train_annotation_counts);
                   TrainEpoch epoch soft; Evaluate epoch] in
      if Rgt_dec val_acc_mac best_acc then
        let '(evs, final) :=
          train_loop train_annotation_counts soft evaluate val_acc_mac epoch rest in
        (head ++ [UpdateBest epoch; ReportBest val_acc_mac epoch] ++ evs, final)
      else
        let '(evs, final) :=
          train_loop train_annotation_counts soft evaluate best_acc best_epoch rest in
        (head ++ [ReportBest best_acc best_epoch] ++ evs, final)
  end.

Definition train (train_annotation_counts : list nat) (soft : bool)
    (num_epochs : nat) (evaluate : nat -> R) : list event * (R * nat) :=
  let '(evs, final) :=
    train_loop train_annotation_counts soft evaluate 0 0%nat (seq 0 num_epochs) in
  (evs ++ [SaveModel; LoadBestWeights; PseudoLabelReset soft true], final).

(** What [best_acc] and [best_epoch] are before epoch [a]: the largest
    score so far (at least 0) and the first epoch that reached it. *)
Definition tracked (evaluate : nat -> R) (a : nat) (best_acc : R) (best_epoch : nat) : Prop :=
  best_acc = Stage1Train.best_before evaluate a /\
  (best_acc > 0 ->
   (best_epoch < a)%nat /\ evaluate best_epoch = best_acc /\
   forall e, (e < best_epoch)%nat -> evaluate e < best_acc) /\
  (best_acc <= 0 -> best_epoch = 0%nat).

End LDAMTrain.

(** * Properties *)

(** ** Facts about tensors *)

Section TensorFacts.
Import Tensor.

Lemma max_from_spec (xs pre : list R) (m : R) (a : nat) :
  pre !! a = Some m ->
  Forall (fun x => x <= m) pre ->
  forall m' a', max_from m a (length pre) xs = (m', a') ->
  (pre ++ xs) !! a' = Some m' /\ Forall (fun x => x <= m') (pre ++ xs).
Proof.
  revert pre m a.
  induction xs as [|x xs IH]; intros pre m a Ha Hle m' a' Hrun; simpl in Hrun.
  - inversion Hrun; subst. rewrite app_nil_r. auto.
  - assert (Hlen : length (pre ++ [x]) = S (length pre))
      by (rewrite length_app; simpl; lia).
    rewrite (cons_middle x pre xs), app_assoc.
    destruct (Rlt_dec m x) as [Hlt|Hge].
    + apply (IH (pre ++ [x]) x (length pre)).
      * rewrite lookup_app_r by lia. now rewrite Nat.sub_diag.
      * apply Forall_app; split.
        -- eapply Forall_impl; [exact Hle|]. simpl. intros y Hy. lra.
        -- constructor; [lra|constructor].
      * now rewrite Hlen.
    + apply (IH (pre ++ [x]) m a).
      * rewrite lookup_app_l; [exact Ha|]. now apply lookup_lt_Some in Ha.
      * apply Forall_app; split; [exact Hle|].
        constructor; [lra|constructor].
      * now rewrite Hlen.
Qed.

Lemma tmax_is_argmax (xs : list R) (m : R) (a : Z) :
  tmax xs = Some (m, a) -> is_argmax xs a m.
Proof.
  destruct xs as [|x xs]; [discriminate|]. simpl.
  destruct (max_from x 0 1 xs) as [m' a'] eqn:Hrun. intros [= <- <-].
  destruct (max_from_spec xs [x] x 0%nat eq_refl) with (m' := m') (a' := a')
    as [Hlk Hall]; [constructor; [lra|constructor] | exact Hrun |].
  exists a'. auto.
Qed.

Lemma tmax_is_Some (xs : list R) : xs <> [] -> is_Some (tmax xs).
Proof.
  destruct xs as [|x xs]; [congruence|]. intros _. simpl.
  destruct (max_from x 0 1 xs). eauto.
Qed.

Lemma softmax_length (xs : list R) : length (softmax xs) = length xs.
Proof. unfold softmax. now rewrite !length_map. Qed.

Lemma softmax_nonempty (xs : list R) : xs <> [] -> softmax xs <> [].
Proof.
  intros Hne Hs. apply Hne, nil_length_inv.
  rewrite <- softmax_length, Hs. reflexivity.
Qed.

End TensorFacts.

(** ** The confidence gate (claim C2) *)

Section ConfidenceGateFacts.
Import Tensor ConfidenceGate.

Lemma gate_row_spec (theta : R) (logits : list R) :
  logits <> [] ->
  exists (p : Z) (m : R) (a : Z),
    gate_row theta logits = Some p /\
    is_argmax (softmax logits) a m /\
    (p = (-1)%Z \/ p = a) /\
    (p = (-1)%Z <-> m < theta).
Proof.
  intros Hne. unfold gate_row.
  destruct (tmax_is_Some (softmax logits) (softmax_nonempty _ Hne)) as [[m a] Hmax].
  rewrite Hmax. simpl.
  pose proof (tmax_is_argmax _ _ _ Hmax) as Harg.
  exists (if Rlt_dec m theta then (-1)%Z else a), m, a.
  split; [reflexivity|]. split; [exact Harg|].
  destruct Harg as (n & -> & _ & _).
  destruct (Rlt_dec m theta) as [Hlt|Hge]; split; auto.
  - tauto.
  - split; [lia | intros; contradiction].
Qed.

(** C2. For every batch of logits with at least one class and every
    threshold theta, the gate returns one prediction per example; each
    prediction is either -1 or the arg-max of the softmax of that example's
    logits, and it is -1 exactly when the maximum softmax probability is
    strictly below theta. (No assumption on theta is needed, so the
    statement covers theta in [0,1].) *)
Theorem confidence_gate_emits_argmax_or_unknown (theta : R) (logits : list (list R)) :
  Forall (fun row => row <> []) logits ->
  exists preds : list Z,
    confidence_gate theta logits = Some preds /\
    Forall2 (fun row p =>
               exists (m : R) (a : Z),
                 is_argmax (softmax row) a m /\
                 (p = (-1)%Z \/ p = a) /\
                 (p = (-1)%Z <-> m < theta)) logits preds.
Proof.
  unfold confidence_gate. induction 1 as [|row rows Hrow _ IH].
  - exists []. split; [reflexivity|constructor].
  - destruct IH as (preds & Hrun & Hall).
    destruct (gate_row_spec theta row Hrow) as (p & m & a & Hp & Hspec).
    exists (p :: preds). split.
    + apply mapM_Some. constructor; [exact Hp|]. now apply mapM_Some.
    + constructor; [exists m, a; exact Hspec | exact Hall].
Qed.

Lemma confidence_gate_emits_argmax_or_unknown_witness :
  exists preds : list Z,
    confidence_gate (1 / 2) [[0; 1]; [2; 0; 0]] = Some preds /\
    Forall2 (fun row p =>
               exists (m : R) (a : Z),
                 is_argmax (softmax row) a m /\
                 (p = (-1)%Z \/ p = a) /\
                 (p = (-1)%Z <-> m < 1 / 2)) [[0; 1]; [2; 0; 0]] preds.
Proof.
  apply (confidence_gate_emits_argmax_or_unknown (1 / 2) [[0; 1]; [2; 0; 0]]).
  repeat constructor; discriminate.
Defined.

End ConfidenceGateFacts.

(** ** The FixMatch consistency loss (claim C1) *)

Section FixMatchFacts.
Import Tensor FixMatch.

Lemma cross_entropy_row_xent (rw rs : list R) (m : R) (a : Z) :
  length rw = length rs ->
  is_argmax (softmax rw) a m ->
  cross_entropy_row rs a = Some (xent rs a).
Proof.
  intros Hlen (n & -> & Hn & _). unfold cross_entropy_row, xent.
  destruct (decide (0 <= Z.of_nat n)%Z) as [_|Hneg]; [|lia].
  rewrite Nat2Z.id.
  apply lookup_lt_Some in Hn. rewrite softmax_length, Hlen, <- softmax_length in Hn.
  destruct (lookup_lt_is_Some_2 _ _ Hn) as [p Hp]. rewrite Hp. simpl.
  now rewrite (nth_lookup_Some _ _ 0 _ Hp).
Qed.

(** The per-example quantities of one step: the pseudo-labels of the weak
    view, the cross-entropies of the strong view, and their masked
    products. *)
Lemma loss_terms (t : R) (w s : list (list R)) :
  Forall2 (fun rw rs => rw <> [] /\ length rw = length rs) w s ->
  exists (pseudo : list (R * Z)) (ce : list R),
    mapM (fun row => tmax (softmax row)) w = Some pseudo /\
    Forall2 (fun row p => is_argmax (softmax row) p.2 p.1) w pseudo /\
    mapM (fun '(row, tg) => cross_entropy_row row tg) (zip s pseudo.*2) = Some ce /\
    length pseudo = length s /\ length ce = length s /\
    zip_with Rmult ce (ge_mask t pseudo.*1)
    = zip_with (fun '(m, a) row => if reaches t m then xent row a else 0) pseudo s.
Proof.
  induction 1 as [|rw rs w s [Hne Hlen] _ IH].
  - exists [], []. repeat split; constructor.
  - destruct IH as (pseudo & ce & Hps & Harg & Hce & Hl1 & Hl2 & Hzip).
    destruct (tmax_is_Some (softmax rw) (softmax_nonempty _ Hne)) as [[m a] Hmax].
    pose proof (tmax_is_argmax _ _ _ Hmax) as Hma.
    exists ((m, a) :: pseudo), (xent rs a :: ce).
    repeat split.
    + cbn. rewrite Hmax. cbn. rewrite Hps. reflexivity.
    + constructor; [exact Hma | exact Harg].
    + cbn. rewrite (cross_entropy_row_xent rw rs m a Hlen Hma). cbn.
      rewrite Hce. reflexivity.
    + simpl. now rewrite Hl1.
    + simpl. now rewrite Hl2.
    + cbn. fold (ge_mask t pseudo.*1). rewrite Hzip. f_equal. unfold reaches.
      destruct (Rge_dec m t); lra.
Qed.

Lemma tsum_zeros (xs : list R) : Forall (fun x => x = 0) xs -> tsum xs = 0.
Proof. induction 1 as [|x xs -> _ IH]; simpl; [reflexivity | rewrite IH; lra]. Qed.

Lemma consistency_loss_masked_mean (t : R) (w s : list (list R)) :
  w <> [] ->
  Forall2 (fun rw rs => rw <> [] /\ length rw = length rs) w s ->
  exists pseudo : list (R * Z),
    Forall2 (fun row p => is_argmax (softmax row) p.2 p.1) w pseudo /\
    consistency_loss t w s = Some (masked_mean (reaches t) pseudo s).
Proof.
  intros Hne Hrows.
  destruct (loss_terms t w s Hrows) as (pseudo & ce & Hps & Harg & Hce & Hl1 & Hl2 & Hzip).
  exists pseudo. split; [exact Harg|].
  unfold consistency_loss. rewrite Hps. cbn.
  unfold cross_entropy_none.
  rewrite decide_True by (now rewrite !length_fmap with (f := snd), Hl1).
  rewrite Hce. cbn. unfold pointwise.
  rewrite decide_True
    by (unfold ge_mask; now rewrite length_map, length_fmap, Hl1, Hl2).
  cbn. rewrite Hzip. unfold masked_mean, tmean.
  assert (Hlen : length (zip_with (fun '(m, a) row =>
                    if reaches t m then xent row a else 0) pseudo s) = length s)
    by (rewrite length_zip_with; lia).
  destruct (zip_with _ pseudo s) as [|y ys] eqn:Hz.
  - exfalso. apply Hne. apply Forall2_length in Hrows.
    simpl in Hlen. apply nil_length_inv. lia.
  - now rewrite Hlen.
Qed.

Lemma masked_mean_none_selected (selected : R -> bool) (pseudo : list (R * Z))
    (s : list (list R)) :
  Forall (fun p => selected p.1 = false) pseudo ->
  masked_mean selected pseudo s = 0.
Proof.
  intros Hall. unfold masked_mean. rewrite tsum_zeros; [lra|].
  revert s. induction Hall as [|[m a] pseudo Hm _ IH]; intros [|row s]; cbn;
    try constructor.
  - simpl in Hm. now rewrite Hm.
  - apply IH.
Qed.

(** The split of the logits of the concatenated batch gives back the
    weak and the strong view. *)
Lemma chunk2_views {A : Type} (w s : list A) :
  w <> [] -> length w = length s -> chunk2 (w ++ s) = Some (w, s).
Proof.
  intros Hne Hlen. unfold chunk2. rewrite length_app, <- Hlen.
  assert (0 < length w)%nat by (destruct w; [congruence | simpl; lia]).
  rewrite decide_False by lia.
  replace (Nat.div2 (S (length w + length w))) with (length w).
  - now rewrite take_app_length, drop_app_length.
  - replace (S (length w + length w)) with (S (2 * length w)) by lia.
    now rewrite Nat.div2_succ_double.
Qed.

Lemma step_loss_views (t lambda loss_l : R) (l w s : list (list R)) :
  w <> [] -> length w = length s ->
  step_loss t lambda (length l) (l ++ w ++ s) loss_l
  = loss_u ← consistency_loss t w s; Some (loss_l + lambda * loss_u).
Proof.
  intros Hne Hlen. unfold step_loss.
  rewrite drop_app_length, (chunk2_views w s Hne Hlen). reflexivity.
Qed.

(** C1 (amended). For a non-empty unlabeled batch whose weak and strong
    rows have the same, non-zero number of classes, the consistency loss is
    the sum over the batch of the cross-entropy between the strong-view
    logits and the weak-view arg-max pseudo-label, taken over the examples
    whose maximum weak-view probability is AT LEAST the threshold (the
    others contribute zero), divided by the size of the whole batch.  In
    particular the loss is exactly 0 when every confidence is below the
    threshold. *)
Theorem consistency_loss_full_batch_mean (t : R) (w s : list (list R)) :
  w <> [] ->
  Forall2 (fun rw rs => rw <> [] /\ length rw = length rs) w s ->
  exists pseudo : list (R * Z),
    Forall2 (fun row p => is_argmax (softmax row) p.2 p.1) w pseudo /\
    consistency_loss t w s = Some (masked_mean (reaches t) pseudo s) /\
    (Forall (fun p => p.1 < t) pseudo -> consistency_loss t w s = Some 0).
Proof.
  intros Hne Hrows.
  destruct (consistency_loss_masked_mean t w s Hne Hrows) as (pseudo & Harg & Hloss).
  exists pseudo. repeat split; [exact Harg | exact Hloss |].
  intros Hlow. rewrite Hloss. f_equal.
  apply masked_mean_none_selected.
  eapply Forall_impl; [exact Hlow|]. intros [m a]; simpl. intros Hm.
  unfold reaches. destruct (Rge_dec m t); [lra | reflexivity].
Qed.

Lemma consistency_loss_full_batch_mean_witness :
  exists pseudo : list (R * Z),
    Forall2 (fun row p => is_argmax (softmax row) p.2 p.1) [[0; 0]] pseudo /\
    consistency_loss (1 / 2) [[0; 0]] [[0; 0]]
    = Some (masked_mean (reaches (1 / 2)) pseudo [[0; 0]]) /\
    (Forall (fun p => p.1 < 1 / 2) pseudo ->
     consistency_loss (1 / 2) [[0; 0]] [[0; 0]] = Some 0).
Proof.
  apply (consistency_loss_full_batch_mean (1 / 2) [[0; 0]] [[0; 0]]).
  - discriminate.
  - repeat constructor. discriminate.
Defined.

Lemma softmax_two_zeros : softmax [0; 0] = [1 / 2; 1 / 2].
Proof. unfold softmax. simpl. rewrite exp_0. repeat f_equal; lra. Qed.

Lemma argmax_two_halves (pseudo : list (R * Z)) :
  Forall2 (fun row p => is_argmax (softmax row) p.2 p.1) [[0; 0]] pseudo ->
  exists a : Z, pseudo = [(1 / 2, a)] /\ xent [0; 0] a = - ln (1 / 2).
Proof.
  intros H. apply Forall2_cons_inv_l in H as ([m a] & rest & Harg & Hrest & ->).
  apply Forall2_nil_inv_l in Hrest as ->.
  destruct Harg as (n & Ha & Hn & _). simpl in Ha, Hn. subst a.
  rewrite softmax_two_zeros in Hn.
  exists (Z.of_nat n). unfold xent. rewrite Nat2Z.id, softmax_two_zeros.
  destruct n as [|[|n]]; simpl in *; try discriminate;
    injection Hn as <-; auto.
Qed.

(** C1 as stated fails: with the mask read as "exceeds the threshold", a
    confidence equal to the threshold would be masked out, but the code
    ([max_probs.ge]) keeps it.  One example, two classes, all logits 0,
    threshold 1/2: the confidence is exactly 1/2 and the loss is ln 2,
    not 0. *)
Lemma consistency_loss_keeps_threshold_ties :
  ~ exists pseudo : list (R * Z),
      Forall2 (fun row p => is_argmax (softmax row) p.2 p.1) [[0; 0]] pseudo /\
      consistency_loss (1 / 2) [[0; 0]] [[0; 0]]
      = Some (masked_mean (exceeds (1 / 2)) pseudo [[0; 0]]).
Proof.
  intros (pseudo & Harg & Hloss).
  destruct (argmax_two_halves pseudo Harg) as (a & -> & _).
  destruct (consistency_loss_masked_mean (1 / 2) [[0; 0]] [[0; 0]])
    as (pseudo' & Harg' & Hloss');
    [discriminate | repeat constructor; discriminate |].
  destruct (argmax_two_halves pseudo' Harg') as (a' & -> & Hx).
  rewrite Hloss' in Hloss. injection Hloss as Hloss.
  unfold masked_mean, reaches, exceeds in Hloss. cbn in Hloss.
  destruct (Rge_dec (1 / 2) (1 / 2)) as [_|Hn]; [|lra].
  destruct (Rgt_dec (1 / 2) (1 / 2)) as [Hgt|_]; [lra|].
  rewrite Hx in Hloss.
  assert (Hln : ln (1 / 2) < 0).
  { rewrite <- ln_1. apply ln_increasing; lra. }
  lra.
Qed.

End FixMatchFacts.

(** ** Reachability rescaling (claim C4) *)

Section ReachabilityFacts.
Import Tensor Reachability.

#[local] Instance Rle_total : Total Rle.
Proof. intros x y. destruct (Rle_dec x y); [left | right]; lra. Qed.

#[local] Instance Rle_transitive : Transitive Rle.
Proof. intros x y z. apply Rle_trans. Qed.

(** The first entry of the sorted row is an entry of the row and a lower
    bound of it. *)
Lemma sort_values_head (row : list R) :
  row <> [] ->
  exists v, sort_values row !! 0%nat = Some v /\ v ∈ row /\ (forall x, x ∈ row -> v <= x).
Proof.
  intros Hne. unfold sort_values.
  pose proof (merge_sort_Permutation Rle row) as Hperm.
  pose proof (StronglySorted_merge_sort Rle row) as Hsorted.
  destruct (merge_sort Rle row) as [|v vs].
  - symmetry in Hperm. apply Permutation_nil_r in Hperm. contradiction.
  - exists v. split; [reflexivity|]. split.
    + rewrite <- Hperm. left.
    + intros x Hx. rewrite <- Hperm in Hx.
      apply StronglySorted_cons in Hsorted as [Hall _].
      apply elem_of_cons in Hx as [->|Hx]; [lra|].
      rewrite Forall_forall in Hall. now apply Hall.
Qed.

Lemma dist_to_centroids_Some (centroids : list (list R)) (feat : list R) :
  Forall (fun c => length c = length feat) centroids ->
  dist_to_centroids centroids feat
  = Some (map (fun c => norm2 (zip_with Rminus feat c)) centroids).
Proof.
  intros Hall. unfold dist_to_centroids. apply mapM_Some.
  induction Hall as [|c cs Hc _ IH]; constructor; [|exact IH].
  unfold dist, pointwise. now rewrite decide_True.
Qed.

Lemma sum_squares_nonneg (v : list R) : 0 <= tsum (map (fun x => x * x) v).
Proof. induction v as [|x v IH]; simpl; [lra | nra]. Qed.

Lemma sum_squares_zero (v : list R) :
  tsum (map (fun x => x * x) v) = 0 -> Forall (fun x => x = 0) v.
Proof.
  induction v as [|x v IH]; simpl; intros Hsum; [constructor|].
  pose proof (sum_squares_nonneg v).
  constructor; [nra | apply IH; nra].
Qed.

Lemma zip_minus_zero (f c : list R) :
  length f = length c -> Forall (fun x => x = 0) (zip_with Rminus f c) -> f = c.
Proof.
  revert c. induction f as [|x f IH]; intros [|y c] Hlen Hall; try discriminate;
    [reflexivity|].
  cbn in Hall. apply Forall_cons in Hall as [Hxy Hall].
  f_equal; [lra | apply IH; [simpl in Hlen; lia | exact Hall]].
Qed.

(** The distance between two different vectors of one width is positive. *)
Lemma norm2_diff_pos (f c : list R) :
  length f = length c -> f <> c -> 0 < norm2 (zip_with Rminus f c).
Proof.
  intros Hlen Hne. unfold norm2.
  destruct (sqrt_pos (tsum (map (fun x => x * x) (zip_with Rminus f c)))) as [Hpos|Hzero];
    [exact Hpos|].
  exfalso. apply Hne. apply zip_minus_zero; [exact Hlen|].
  apply sum_squares_zero. apply sqrt_eq_0; [apply sum_squares_nonneg | congruence].
Qed.

Lemma norm2_self (f : list R) : norm2 (zip_with Rminus f f) = 0.
Proof.
  assert (Hsum : tsum (map (fun x => x * x) (zip_with Rminus f f)) = 0).
  { induction f as [|x f IH]; cbn; [reflexivity|].
    unfold tsum in IH. rewrite IH. lra. }
  unfold norm2. rewrite Hsum. apply sqrt_0.
Qed.

Lemma reachability_row_spec (scale : R) (centroids : list (list R)) (feat logits : list R) :
  centroids <> [] ->
  Forall (fun c => length c = length feat) centroids ->
  feat ∉ centroids ->
  exists d_min,
    is_min_dist centroids feat d_min /\ 0 < d_min /\
    reachability_row scale centroids feat logits
    = Some (map (fun x => scale / d_min * x) logits).
Proof.
  intros Hne Hall Hnin. unfold reachability_row.
  rewrite (dist_to_centroids_Some _ _ Hall). cbn.
  destruct (sort_values_head (map (fun c => norm2 (zip_with Rminus feat c)) centroids))
    as (v & Hhead & Hin & Hle).
  { destruct centroids; [contradiction | discriminate]. }
  assert (Hpos : 0 < v).
  { apply list_elem_of_fmap in Hin as (c & -> & Hc). apply norm2_diff_pos.
    - rewrite Forall_forall in Hall. symmetry. now apply Hall.
    - intros ->. contradiction. }
  exists v. split; [|split; [exact Hpos|]].
  - split.
    + apply list_elem_of_fmap in Hin as (c & -> & Hc). eauto.
    + intros c Hc. apply Hle. apply list_elem_of_fmap. eauto.
  - rewrite Hhead. cbn. destruct (Req_dec_T v 0); [lra | reflexivity].
Qed.

(** A feature vector that is a row of the centroid table has nearest
    distance 0: the reachability is no real number. *)
Lemma reachability_row_on_centroid (scale : R) (centroids : list (list R))
    (feat logits : list R) :
  Forall (fun c => length c = length feat) centroids ->
  feat ∈ centroids ->
  reachability_row scale centroids feat logits = None.
Proof.
  intros Hall Hin. unfold reachability_row.
  rewrite (dist_to_centroids_Some _ _ Hall). cbn.
  destruct (sort_values_head (map (fun c => norm2 (zip_with Rminus feat c)) centroids))
    as (v & Hhead & Hv & Hle).
  { destruct centroids; [inversion Hin | discriminate]. }
  assert (Hzero : v <= 0).
  { apply Hle. apply list_elem_of_fmap. exists feat. split; [|exact Hin].
    symmetry. apply norm2_self. }
  assert (Hnn : 0 <= v).
  { apply list_elem_of_fmap in Hv as (c & -> & _). apply sqrt_pos. }
  rewrite Hhead. cbn. destruct (Req_dec_T v 0); [reflexivity | lra].
Qed.

(** C4. In the deployment pass, when the centroid table is not empty, its
    rows have the width of the feature vectors and no feature vector lies
    exactly on a centroid (so that every nearest distance is positive),
    the calibrated logits of every example are its raw logits, each
    multiplied by the one scalar reachability_scale / d_min, where d_min is
    the smallest Euclidean distance from the example's feature vector to a
    row of the centroid table. *)
Theorem calibrate_scales_by_nearest_centroid (scale : R) (dim : nat)
    (centroids feats logits : list (list R)) :
  centroids <> [] ->
  Forall (fun c => length c = dim) centroids ->
  Forall (fun f => length f = dim /\ f ∉ centroids) feats ->
  length feats = length logits ->
  exists out : list (list R),
    calibrate scale centroids feats logits = Some out /\
    Forall3 (fun f l o =>
               exists d_min,
                 is_min_dist centroids f d_min /\ 0 < d_min /\
                 o = map (fun x => scale / d_min * x) l) feats logits out.
Proof.
  intros Hne Hcs Hfs Hlen. unfold calibrate. rewrite decide_True by exact Hlen.
  revert logits Hlen. induction Hfs as [|f feats [Hf Hnin] _ IH]; intros [|l logits] Hlen;
    try discriminate.
  - exists []. split; [reflexivity | constructor].
  - destruct (IH logits) as (out & Hrun & Hall); [simpl in Hlen; lia|].
    destruct (reachability_row_spec scale centroids f l Hne) as (d & Hmin & Hd & Hrow);
      [|exact Hnin|].
    { eapply Forall_impl; [exact Hcs|]. simpl. intros c Hc. congruence. }
    exists (map (fun x => scale / d * x) l :: out). split.
    + cbn. rewrite Hrow. cbn. rewrite Hrun. reflexivity.
    + constructor; [eauto | exact Hall].
Qed.

Lemma calibrate_scales_by_nearest_centroid_witness :
  exists out : list (list R),
    calibrate 10 [[0; 0]; [3; 4]] [[3; 0]; [1; 1]] [[1; 2; 3]; [0; 5; 5]] = Some out /\
    Forall3 (fun f l o =>
               exists d_min,
                 is_min_dist [[0; 0]; [3; 4]] f d_min /\ 0 < d_min /\
                 o = map (fun x => 10 / d_min * x) l)
      [[3; 0]; [1; 1]] [[1; 2; 3]; [0; 5; 5]] out.
Proof.
  apply (calibrate_scales_by_nearest_centroid 10 2 [[0; 0]; [3; 4]]
           [[3; 0]; [1; 1]] [[1; 2; 3]; [0; 5; 5]]).
  - discriminate.
  - repeat constructor.
  - repeat (constructor; [split; [reflexivity|] |]); try constructor;
      (intros Hin; apply elem_of_cons in Hin as [Heq|Hin];
       [injection Heq as H; lra |
        apply elem_of_cons in Hin as [Heq|Hin]; [injection Heq as H; lra | inversion Hin]]).
  - reflexivity.
Defined.

(** An example whose feature vector is a row of the centroid table leaves
    the batch without calibrated logits. *)
Lemma calibrate_on_centroid_undefined (scale : R) (dim : nat)
    (centroids feats logits : list (list R)) :
  Forall (fun c => length c = dim) centroids ->
  Exists (fun f => length f = dim /\ f ∈ centroids) feats ->
  calibrate scale centroids feats logits = None.
Proof.
  intros Hcs Hex. unfold calibrate.
  destruct (decide (length feats = length logits)) as [Hlen|]; [|reflexivity].
  apply mapM_None. revert logits Hlen.
  induction Hex as [f feats [Hf Hin]|f feats _ IH]; intros [|l logits] Hlen;
    try discriminate; cbn.
  - apply Exists_cons_hd. apply reachability_row_on_centroid; [|exact Hin].
    eapply Forall_impl; [exact Hcs|]. simpl. intros c Hc. congruence.
  - apply Exists_cons_tl. apply IH. simpl in Hlen. lia.
Qed.

End ReachabilityFacts.

(** ** Centroid calibration (claim C3) *)

Section DatasetFacts.
Import Dataset.

Lemma elem_of_unique (labels : list nat) (c : nat) : c ∈ unique labels <-> c ∈ labels.
Proof.
  unfold unique. rewrite merge_sort_Permutation. apply elem_of_remove_dups.
Qed.

Lemma NoDup_unique (labels : list nat) : NoDup (unique labels).
Proof.
  unfold unique. rewrite merge_sort_Permutation. apply NoDup_remove_dups.
Qed.

Lemma Sorted_unique_labels (labels : list nat) : Sorted le (unique labels).
Proof. unfold unique. apply Sorted_merge_sort. apply _. Qed.

Lemma Sorted_le_seq (a n : nat) : Sorted le (seq a n).
Proof.
  revert a. induction n as [|n IH]; intros a; simpl; constructor; [apply IH|].
  destruct n; simpl; constructor. lia.
Qed.

(** When the labels are exactly the classes 0 .. C-1, [np.unique] lists
    the classes in order. *)
Lemma unique_all_classes (labels : list nat) (C : nat) :
  (forall c, c ∈ labels <-> (c < C)%nat) -> unique labels = seq 0 C.
Proof.
  intros Hall. apply (Sorted_unique le).
  - apply Sorted_unique_labels.
  - apply Sorted_le_seq.
  - apply NoDup_Permutation; [apply NoDup_unique | apply NoDup_seq |].
    intros c. rewrite elem_of_unique, Hall, elem_of_seq. lia.
Qed.

Lemma count_of_pos (labels : list nat) (c : nat) :
  c ∈ labels <-> (0 < count_of c labels)%nat.
Proof.
  unfold count_of. split.
  - intros Hin.
    assert (Hc : c ∈ filter (fun l => l = c) labels) by (apply list_elem_of_filter; auto).
    destruct (filter _ labels); [inversion Hc | simpl; lia].
  - intros Hpos. destruct (filter (fun l => l = c) labels) as [|x xs] eqn:Hf;
      [simpl in Hpos; lia|].
    assert (Hx : x ∈ filter (fun l => l = c) labels) by (rewrite Hf; left).
    apply list_elem_of_filter in Hx as [-> Hx]. exact Hx.
Qed.

End DatasetFacts.

Section CentroidFacts.
Import Tensor Dataset Centroids.
Context {X : Type} (feature : X -> list R).

Lemma class_features_cons (c : nat) (x : X) (l : nat) (rest : list (X * nat)) :
  class_features feature c ((x, l) :: rest)
  = if decide (l = c) then feature x :: class_features feature c rest
    else class_features feature c rest.
Proof.
  unfold class_features. rewrite filter_cons. simpl.
  destruct (decide (l = c)); reflexivity.
Qed.

Lemma class_features_app (c : nat) (l1 l2 : list (X * nat)) :
  class_features feature c (l1 ++ l2)
  = class_features feature c l1 ++ class_features feature c l2.
Proof. unfold class_features. now rewrite filter_app, map_app. Qed.

(** The table after a batch: same shape, and each row has grown by the
    features of the examples of its class, in order. *)
Lemma accumulate_batch_spec (dim : nat) (batch : list (X * nat)) :
  forall centroids : list (list R),
  Forall (fun row => length row = dim) centroids ->
  Forall (fun e => (e.2 < length centroids)%nat /\ length (feature e.1) = dim) batch ->
  exists centroids',
    accumulate_batch feature centroids batch = Some centroids' /\
    length centroids' = length centroids /\
    Forall (fun row => length row = dim) centroids' /\
    forall c row, centroids !! c = Some row ->
      centroids' !! c = Some (foldl (zip_with Rplus) row (class_features feature c batch)).
Proof.
  induction batch as [|[x l] rest IH]; intros centroids Hshape Hok.
  - exists centroids. repeat split; auto.
  - apply Forall_cons in Hok as [[Hl Hf] Hok]. simpl in Hl, Hf.
    destruct (lookup_lt_is_Some_2 _ _ Hl) as [row0 Hrow0].
    assert (Hlen0 : length row0 = dim).
    { rewrite Forall_forall in Hshape. apply Hshape.
      eapply list_elem_of_lookup_2; eauto. }
    destruct (IH (<[l := zip_with Rplus row0 (feature x)]> centroids))
      as (cents' & Hrun & Hlen & Hshape' & Hrows).
    { apply Forall_insert; [exact Hshape|]. rewrite length_zip_with. lia. }
    { rewrite length_insert. exact Hok. }
    exists cents'. repeat split.
    + cbn. unfold accumulate. rewrite Hrow0. cbn. unfold pointwise.
      rewrite decide_True by congruence. cbn. exact Hrun.
    + now rewrite Hlen, length_insert.
    + exact Hshape'.
    + intros c row Hc. rewrite class_features_cons.
      destruct (decide (l = c)) as [->|Hne].
      * simpl. apply Hrows. rewrite list_lookup_insert_eq by exact Hl.
        congruence.
      * apply Hrows. now rewrite list_lookup_insert_ne.
Qed.

Lemma accumulate_loader_spec (dim : nat) (loader : list (list (X * nat))) :
  forall centroids : list (list R),
  Forall (fun row => length row = dim) centroids ->
  Forall (fun e => (e.2 < length centroids)%nat /\ length (feature e.1) = dim)
    (concat loader) ->
  exists centroids',
    accumulate_loader feature centroids loader = Some centroids' /\
    length centroids' = length centroids /\
    forall c row, centroids !! c = Some row ->
      centroids' !! c
      = Some (foldl (zip_with Rplus) row (class_features feature c (concat loader))).
Proof.
  induction loader as [|batch rest IH]; intros centroids Hshape Hok.
  - exists centroids. repeat split; auto.
  - simpl in Hok. apply Forall_app in Hok as [Hb Hrest].
    destruct (accumulate_batch_spec dim batch centroids Hshape Hb)
      as (c1 & Hrun1 & Hlen1 & Hshape1 & Hrows1).
    destruct (IH c1 Hshape1) as (c2 & Hrun2 & Hlen2 & Hrows2).
    { now rewrite Hlen1. }
    exists c2. repeat split.
    + cbn. rewrite Hrun1. cbn. exact Hrun2.
    + congruence.
    + intros c row Hc. simpl. rewrite class_features_app, foldl_app.
      apply Hrows2, Hrows1, Hc.
Qed.

Lemma divide_rows_by_positive (rows : list (list R)) (counts : list nat) :
  length counts = length rows ->
  Forall (fun n => n <> 0%nat) counts ->
  divide_rows rows counts
  = Some (zip_with (fun row n => map (fun x => x / INR n) row) rows counts).
Proof.
  intros Hlen Hpos. unfold divide_rows. rewrite decide_True by exact Hlen.
  apply mapM_Some. clear Hlen. revert rows.
  induction Hpos as [|n counts Hn _ IH]; intros [|row rows]; simpl; constructor.
  - unfold row_div. now rewrite decide_False.
  - apply IH.
Qed.

(** C3 (amended). When every class has at least one labeled example (and
    labels and feature widths fit the table), the calibration pass returns
    a table with one row per class; every count the rows are divided by is
    positive, and the row of each class is the mean of the feature vectors
    of the labeled examples of that class. *)
Theorem centroids_cal_rows_are_class_means (num_cls feature_dim : nat)
    (loader : list (list (X * nat))) :
  Forall (fun e => (e.2 < num_cls)%nat /\ length (feature e.1) = feature_dim)
    (concat loader) ->
  (forall c, (c < num_cls)%nat -> c ∈ (concat loader).*2) ->
  exists centroids : list (list R),
    centroids_cal feature num_cls feature_dim loader = Some centroids /\
    length centroids = num_cls /\
    forall c, (c < num_cls)%nat ->
      (0 < count_of c (concat loader).*2)%nat /\
      centroids !! c = Some (class_mean feature feature_dim c (concat loader)).
Proof.
  intros Hok Hall.
  set (labels := (concat loader).*2).
  assert (Hlabels : forall c, c ∈ labels <-> (c < num_cls)%nat).
  { intros c. split; [|apply Hall].
    intros Hin. apply list_elem_of_fmap in Hin as (e & -> & He).
    rewrite Forall_forall in Hok. now apply Hok. }
  destruct (accumulate_loader_spec feature_dim loader
              (replicate num_cls (replicate feature_dim 0)))
    as (summed & Hrun & Hlen & Hrows).
  { apply Forall_replicate. apply length_replicate. }
  { now rewrite length_replicate. }
  rewrite length_replicate in Hlen.
  unfold centroids_cal. rewrite Hrun. cbn.
  unfold class_counts_cal, unique_counts. fold labels.
  rewrite (unique_all_classes labels num_cls Hlabels).
  rewrite divide_rows_by_positive.
  - eexists. split; [reflexivity|]. split.
    + rewrite length_zip_with, length_map, length_seq. lia.
    + intros c Hc. split; [apply count_of_pos, Hlabels, Hc|].
      rewrite lookup_zip_with.
      rewrite (Hrows c (replicate feature_dim 0)) by (now apply lookup_replicate_2).
      cbn. rewrite list_lookup_fmap.
      assert (Hseq : seq 0 num_cls !! c = Some c) by (apply lookup_seq; lia).
      rewrite Hseq. reflexivity.
  - now rewrite length_map, length_seq.
  - apply Forall_fmap, Forall_forall. intros c Hc. simpl.
    apply elem_of_seq in Hc.
    assert (Hin : c ∈ labels) by (apply Hlabels; lia).
    apply count_of_pos in Hin. lia.
Qed.

End CentroidFacts.

Section CentroidExamples.
Import Tensor Dataset Centroids.

Lemma centroids_cal_rows_are_class_means_witness :
  exists centroids : list (list R),
    centroids_cal (fun v : list R => v) 2 2 [[([1; 0], 0%nat); ([0; 1], 1%nat)]; [([3; 0], 0%nat)]]
    = Some centroids /\
    length centroids = 2%nat /\
    forall c, (c < 2)%nat ->
      (0 < count_of c
             (concat [[([1; 0], 0%nat); ([0; 1], 1%nat)]; [([3; 0], 0%nat)]]).*2)%nat /\
      centroids !! c
      = Some (class_mean (fun v : list R => v) 2 c
                (concat [[([1; 0], 0%nat); ([0; 1], 1%nat)]; [([3; 0], 0%nat)]])).
Proof.
  apply (centroids_cal_rows_are_class_means (fun v : list R => v) 2 2
           [[([1; 0], 0%nat); ([0; 1], 1%nat)]; [([3; 0], 0%nat)]]).
  - repeat constructor.
  - intros c Hc. simpl.
    destruct c as [|[|c]]; [| |lia]; repeat constructor.
Defined.

(** C3 as stated fails for an absent class.  Three classes, one labeled
    example of class 0 and one of class 1, none of class 2: the count
    vector has two entries, the table three rows, and the division has no
    result at all, so class 2 does not keep a zero row. *)
Lemma centroids_cal_absent_class_fails :
  ~ exists centroids : list (list R),
      centroids_cal (fun v : list R => v) 3 1 [[([1], 0%nat); ([3], 1%nat)]] = Some centroids /\
      centroids !! 2%nat = Some [0].
Proof.
  intros (centroids & Hrun & _).
  assert (Hcounts : class_counts_cal [0; 1]%nat = ([0; 1]%nat, [1; 1]%nat))
    by reflexivity.
  unfold centroids_cal in Hrun. cbn in Hrun.
  change (class_counts_cal [0%nat; 1%nat]) with ([0; 1]%nat, [1; 1]%nat) in Hrun.
  cbn in Hrun. discriminate.
Qed.

End CentroidExamples.

(** ** The EMA teacher (claims C5 and C6) *)

Section EMAFacts.
Import Tensor EMA.

Lemma key_inj (needs_module : bool) (k1 k2 : string) :
  key needs_module k1 = key needs_module k2 -> k1 = k2.
Proof.
  unfold key. destruct needs_module; [|auto].
  intros H. exact (String.app_inj "module." k1 k2 H).
Qed.

Lemma copy_value (d : R) (ev mv : list R) :
  length ev = length mv ->
  pointwise Rplus (map (fun x => x * d) ev) (map (fun x => (1 - d) * x) mv)
  = Some (moving_average d ev mv).
Proof.
  intros Hlen. unfold pointwise, moving_average.
  rewrite decide_True by (now rewrite !length_map). f_equal.
  revert mv Hlen. induction ev as [|e ev IH]; intros [|m mv] Hlen;
    try discriminate; [reflexivity|].
  simpl. f_equal; [lra | apply IH; simpl in Hlen; lia].
Qed.

Lemma moving_average_decay_1 (ev mv : list R) :
  length ev = length mv -> moving_average 1 ev mv = ev.
Proof.
  revert mv. induction ev as [|e ev IH]; intros [|m mv] Hlen;
    try discriminate; [reflexivity|].
  unfold moving_average in *. simpl. f_equal; [lra | apply IH; simpl in Hlen; lia].
Qed.

Lemma moving_average_decay_0 (ev mv : list R) :
  length ev = length mv -> moving_average 0 ev mv = mv.
Proof.
  revert mv. induction ev as [|e ev IH]; intros [|m mv] Hlen;
    try discriminate; [reflexivity|].
  unfold moving_average in *. simpl. f_equal; [lra | apply IH; simpl in Hlen; lia].
Qed.

(** The loop of [update]: it succeeds; tensors that are not items of the
    teacher keep their value; each item receives the moving average of its
    old value and the value of the student's tensor of its name. *)
Lemma update_items_spec (d w : R) (nm : bool) (items : list (string * nat)) :
  forall (msd : gmap string nat) (h : list (list R)),
  NoDup items.*1 -> NoDup items.*2 ->
  Forall (fun it =>
            exists lm ev mv,
              msd !! key nm it.1 = Some lm /\ (lm ∉ items.*2) /\
              h !! lm = Some mv /\ h !! it.2 = Some ev /\
              length ev = length mv) items ->
  exists msd' h',
    update_items d w nm items msd h = Some (msd', h') /\
    (length h <= length h')%nat /\
    (forall l, (l < length h)%nat -> l ∉ items.*2 -> h' !! l = h !! l) /\
    Forall (fun it =>
              forall lm ev mv,
                msd !! key nm it.1 = Some lm -> h !! lm = Some mv ->
                h !! it.2 = Some ev ->
                h' !! it.2 = Some (moving_average d ev mv)) items.
Proof.
  induction items as [|[k0 l0] rest IH]; intros msd h Hk Hl Hall.
  - exists msd, h. repeat split; auto.
  - cbn in Hk, Hl. apply NoDup_cons in Hk as [Hk0 Hk]. apply NoDup_cons in Hl as [Hl0 Hl].
    apply Forall_cons in Hall
      as [(lm0 & ev0 & mv0 & Hm0 & Hnin0 & Hmv0 & Hev0 & Hlen0) Hall].
    cbn in Hm0, Hnin0, Hev0.
    apply not_elem_of_cons in Hnin0 as [Hlm0 Hnin0].
    assert (Hlt0 : (l0 < length h)%nat) by (eapply lookup_lt_Some; eauto).
    assert (Hstep : exists msd1 h2,
               update_items d w nm ((k0, l0) :: rest) msd h
               = update_items d w nm rest msd1 h2 /\
               (length h <= length h2)%nat /\
               h2 !! l0 = Some (moving_average d ev0 mv0) /\
               (forall l, (l < length h)%nat -> l <> l0 -> h2 !! l = h !! l) /\
               (forall k', k' <> key nm k0 -> msd1 !! k' = msd !! k')).
    { cbn [update_items]. rewrite Hm0. cbn. rewrite Hmv0. cbn. rewrite Hev0. cbn.
      rewrite (copy_value d ev0 mv0 Hlen0). cbn.
      destruct (contains "bn" (key nm k0)).
      - exists msd, (<[l0 := moving_average d ev0 mv0]> h).
        split; [reflexivity|]. rewrite length_insert. split; [lia|].
        split; [now apply list_lookup_insert_eq|].
        split; [|auto]. intros l _ Hne. now apply list_lookup_insert_ne.
      - rewrite list_lookup_insert_ne by auto. rewrite Hmv0. cbn.
        eexists _, _. split; [reflexivity|].
        rewrite length_app, length_insert. split; [lia|].
        split; [|split].
        + rewrite lookup_app_l by (now rewrite length_insert).
          now apply list_lookup_insert_eq.
        + intros l Hlt Hne. rewrite lookup_app_l by (now rewrite length_insert).
          now apply list_lookup_insert_ne.
        + intros k' Hne. now apply lookup_insert_ne. }
    destruct Hstep as (msd1 & h2 & Hrun & Hlen2 & Hnew & Hframe2 & Hmsd1).
    assert (Hkeep : forall it, it ∈ rest ->
               msd1 !! key nm it.1 = msd !! key nm it.1 /\
               h2 !! it.2 = h !! it.2 /\
               forall lm, msd !! key nm it.1 = Some lm -> h2 !! lm = h !! lm).
    { intros [k l] Hin. cbn.
      assert (Hkne : k <> k0).
      { intros ->. apply Hk0. apply list_elem_of_fmap. exists (k0, l). auto. }
      assert (Hlne : l <> l0).
      { intros ->. apply Hl0. apply list_elem_of_fmap. exists (k, l0). auto. }
      rewrite Forall_forall in Hall.
      destruct (Hall _ Hin) as (lm & ev & mv & Hm & Hnin & Hmv & Hev & Hlen).
      cbn in Hm, Hnin, Hev. apply not_elem_of_cons in Hnin as [Hlm _].
      split; [|split].
      - apply Hmsd1. intros Heq. apply key_inj in Heq. contradiction.
      - apply Hframe2; [eapply lookup_lt_Some; eauto | exact Hlne].
      - intros lm' Hm'. assert (lm' = lm) as -> by congruence.
        apply Hframe2; [eapply lookup_lt_Some; eauto | exact Hlm]. }
    destruct (IH msd1 h2 Hk Hl) as (msd' & h' & Hrun' & Hlen' & Hframe' & Hrest).
    { rewrite Forall_forall in Hall |- *. intros it Hin.
      destruct (Hall _ Hin) as (lm & ev & mv & Hm & Hnin & Hmv & Hev & Hlen).
      destruct (Hkeep it Hin) as (Hk1 & Hk2 & Hk3).
      apply not_elem_of_cons in Hnin as [_ Hnin].
      exists lm, ev, mv. rewrite Hk1, Hk2, (Hk3 lm Hm). auto. }
    exists msd', h'. split; [now rewrite Hrun|]. split; [lia|]. split.
    + intros l Hlt Hnin. cbn in Hnin. apply not_elem_of_cons in Hnin as [Hne Hnin].
      rewrite Hframe' by (lia || auto). now apply Hframe2.
    + constructor.
      * cbn. intros lm ev mv H1 H2 H3.
        rewrite Hframe' by (lia || auto). rewrite Hnew. congruence.
      * rewrite Forall_forall in Hrest |- *. intros it Hin lm ev mv H1 H2 H3.
        destruct (Hkeep it Hin) as (Hk1 & Hk2 & Hk3).
        apply (Hrest it Hin lm ev mv); [congruence | | congruence].
        rewrite (Hk3 lm H1). exact H2.
Qed.

(** What [update] does to the heap as a whole. *)
Lemma update_spec (self : ModelEMA) (model : Net) (h : list (list R)) :
  paired self model h ->
  exists h',
    update self model h = Some h' /\
    (forall l, (l < length h)%nat -> l ∉ (entries (ema self)).*2 -> h' !! l = h !! l) /\
    Forall (fun it =>
              forall lm ev mv,
                state_dict model
                  !! key (has_module model && negb (ema_has_module self)) it.1 = Some lm ->
                h !! lm = Some mv -> h !! it.2 = Some ev ->
                h' !! it.2 = Some (moving_average (decay self) ev mv))
      (entries (ema self)).
Proof.
  intros (Hk & Hl & Hall).
  destruct (update_items_spec (decay self) (wd self)
              (has_module model && negb (ema_has_module self))
              (entries (ema self)) (state_dict model) h Hk Hl Hall)
    as (msd' & h' & Hrun & _ & Hframe & Hitems).
  exists h'. unfold update. rewrite Hrun. auto.
Qed.

(** [copy.deepcopy]: the copies sit at new addresses, after the heap that
    was there, and hold the values of the originals. *)
Lemma deepcopy_entries_spec (es : list (string * nat)) :
  forall h : list (list R),
  Forall (fun e => (e.2 < length h)%nat) es ->
  exists vs : list (list R),
    (forall i e, es !! i = Some e -> vs !! i = h !! e.2) /\
    deepcopy_entries es h
    = Some (zip es.*1 (seq (length h) (length es)), h ++ vs).
Proof.
  induction es as [|[k l] rest IH]; intros h Hall.
  - exists []. split; [intros i e He; discriminate|].
    cbn. now rewrite app_nil_r.
  - apply Forall_cons in Hall as [Hl Hrest]. cbn in Hl.
    destruct (lookup_lt_is_Some_2 _ _ Hl) as [v Hv].
    destruct (IH (h ++ [v])) as (vs & Hvs & Hrun).
    { eapply Forall_impl; [exact Hrest|]. simpl. intros e He.
      rewrite length_app. simpl. lia. }
    exists (v :: vs). split.
    + intros [|i] e He; cbn in He.
      * injection He as <-. cbn. now rewrite Hv.
      * etrans; [exact (Hvs i e He)|]. apply lookup_app_l.
        rewrite Forall_forall in Hrest. apply Hrest.
        eapply list_elem_of_lookup_2; eauto.
    + cbn. rewrite Hv. cbn. rewrite Hrun. cbn.
      rewrite length_app, <- app_assoc. cbn. now rewrite Nat.add_1_r.
Qed.

(** The teacher built by [__init__] is paired with its student. *)
Lemma init_paired (lr wdecay d : R) (model : Net) (h : list (list R)) :
  NoDup (entries model).*1 ->
  Forall (fun e => (e.2 < length h)%nat) (entries model) ->
  exists self h',
    init lr wdecay model d h = Some (self, h') /\
    decay self = d /\ wd self = lr * wdecay /\
    paired self model h' /\
    (forall l, (l < length h)%nat -> h' !! l = h !! l).
Proof.
  intros Hnames Hall.
  destruct (deepcopy_entries_spec (entries model) h Hall) as (vs & Hvs & Hrun).
  eexists _, (h ++ vs). unfold init. rewrite Hrun. cbn.
  split; [reflexivity|]. split; [reflexivity|]. split; [reflexivity|].
  split; [|intros l Hl; now apply lookup_app_l].
  unfold paired. cbn.
  replace (has_module model && negb (has_module model)) with false
    by (now destruct (has_module model)).
  assert (Hlen : length (entries model).*1 = length (seq (length h) (length (entries model))))
    by (now rewrite length_fmap, length_seq).
  rewrite fst_zip, snd_zip by lia.
  split; [exact Hnames|]. split; [apply NoDup_seq|].
  apply Forall_forall. intros [k x] Hin.
  apply list_elem_of_lookup in Hin as [i Hi].
  apply lookup_zip_Some in Hi as [Hk Hx].
  rewrite list_lookup_fmap in Hk.
  destruct (entries model !! i) as [[k' lm]|] eqn:He; [|discriminate].
  cbn in Hk. injection Hk as ->.
  apply lookup_seq in Hx as [-> Hi].
  assert (Hlm : (lm < length h)%nat).
  { rewrite Forall_forall in Hall.
    apply (Hall (k, lm)). eapply list_elem_of_lookup_2; eauto. }
  destruct (lookup_lt_is_Some_2 _ _ Hlm) as [v Hv].
  exists lm, v, v. cbn.
  split; [|split; [|split; [|split]]].
  - apply elem_of_list_to_map_1; [exact Hnames|].
    eapply list_elem_of_lookup_2; eauto.
  - rewrite elem_of_seq. lia.
  - now rewrite lookup_app_l.
  - rewrite lookup_app_r by lia.
    replace (length h + i - length h)%nat with i by lia.
    rewrite (Hvs i _ He). exact Hv.
  - reflexivity.
Qed.

(** C5. For a teacher set up for the student, [update] succeeds and every
    tensor of the teacher becomes d * W_ema + (1 - d) * W_student, where
    W_student is the student's tensor of the same name; so with decay 1
    the teacher's tensor is unchanged whatever the student's value, and
    with decay 0 it equals the student's tensor after the update. *)
Theorem ema_update_is_moving_average (self : ModelEMA) (model : Net) (h : list (list R)) :
  paired self model h ->
  exists h',
    update self model h = Some h' /\
    forall k, k ∈ (entries (ema self)).*1 ->
      exists w_ema w_student,
        weight h (ema self) k = Some w_ema /\
        weight h model (key (has_module model && negb (ema_has_module self)) k)
        = Some w_student /\
        weight h' (ema self) k = Some (moving_average (decay self) w_ema w_student) /\
        (decay self = 1 -> weight h' (ema self) k = Some w_ema) /\
        (decay self = 0 -> weight h' (ema self) k = Some w_student).
Proof.
  intros Hp. destruct (update_spec self model h Hp) as (h' & Hrun & _ & Hitems).
  destruct Hp as (Hk & _ & Hall).
  exists h'. split; [exact Hrun|]. intros k Hin.
  apply list_elem_of_fmap in Hin as ([k' l] & -> & Hin). cbn.
  rewrite Forall_forall in Hall, Hitems.
  destruct (Hall _ Hin) as (lm & ev & mv & Hm & _ & Hmv & Hev & Hlen).
  specialize (Hitems _ Hin lm ev mv Hm Hmv Hev). cbn in Hm, Hev, Hitems.
  assert (Hlk : state_dict (ema self) !! k' = Some l)
    by (now apply elem_of_list_to_map_1).
  exists ev, mv. unfold weight. rewrite Hlk, Hm. cbn.
  repeat split; auto.
  - intros Hd. rewrite Hitems, Hd. f_equal. now apply moving_average_decay_1.
  - intros Hd. rewrite Hitems, Hd. f_equal. now apply moving_average_decay_0.
Qed.

Lemma ema_update_is_moving_average_witness :
  let student := {| has_module := false;
                    entries := [("conv1.weight", 0%nat); ("bn1.weight", 1%nat)] |} in
  let teacher := {| ema := {| has_module := false;
                              entries := [("conv1.weight", 2%nat); ("bn1.weight", 3%nat)] |};
                    decay := 0.999; wd := 0.03 * 0.0005; ema_has_module := false |} in
  let h := [[2; 4]; [1]; [0; 0]; [5]] in
  exists h',
    update teacher student h = Some h' /\
    forall k, k ∈ (entries (ema teacher)).*1 ->
      exists w_ema w_student,
        weight h (ema teacher) k = Some w_ema /\
        weight h student (key (has_module student && negb (ema_has_module teacher)) k)
        = Some w_student /\
        weight h' (ema teacher) k = Some (moving_average (decay teacher) w_ema w_student) /\
        (decay teacher = 1 -> weight h' (ema teacher) k = Some w_ema) /\
        (decay teacher = 0 -> weight h' (ema teacher) k = Some w_student).
Proof.
  intros student teacher h.
  apply (ema_update_is_moving_average teacher student h).
  split; [|split].
  - cbn. compute_done.
  - cbn. compute_done.
  - cbn. constructor; [|constructor; [|constructor]].
    + exists 0%nat, [0; 0], [2; 4]. repeat split; [compute_done].
    + exists 1%nat, [5], [1]. repeat split; [compute_done].
Defined.

(** C6 fails on the code.  A student with the single tensor fc.weight = 1,
    learning rate 0.03, weight decay 0.0005: after [update] the student's
    tensor still is 1, not 1 * (1 - 0.03 * 0.0005).  The decayed value is
    a new tensor bound in the local dictionary only. *)
Theorem ema_update_leaves_student_undecayed :
  let student := {| has_module := false; entries := [("fc.weight", 0%nat)] |} in
  exists self h h',
    init 0.03 0.0005 student 0.999 [[1]] = Some (self, h) /\
    wd self = 0.03 * 0.0005 /\
    update self student h = Some h' /\
    weight h student "fc.weight" = Some [1] /\
    weight h' student "fc.weight" = Some [1] /\
    [1] <> [1 * (1 - wd self)].
Proof.
  intros student.
  set (self := {| ema := {| has_module := false; entries := [("fc.weight", 1%nat)] |};
                  decay := 0.999; wd := 0.03 * 0.0005; ema_has_module := false |}).
  assert (Hp : paired self student [[1]; [1]]).
  { split; [|split]; cbn.
    - compute_done.
    - compute_done.
    - constructor; [|constructor].
      exists 0%nat, [1], [1]. repeat split; [compute_done]. }
  destruct (update_spec self student [[1]; [1]] Hp) as (h' & Hrun & Hframe & _).
  exists self, [[1]; [1]], h'.
  split; [reflexivity|]. split; [reflexivity|]. split; [exact Hrun|].
  split; [reflexivity|]. split.
  - unfold weight. change (state_dict student !! "fc.weight") with (Some 0%nat).
    cbn. rewrite Hframe; [reflexivity | simpl; lia | cbn; compute_done].
  - cbn. intros [= H]. lra.
Qed.

End EMAFacts.

(** ** The Stage-1 training loop (claim C7) *)

Section Stage1TrainFacts.
Import Stage1Train.

(** [save_model] is called once, as the last call of the run. *)
Lemma train_saves_last (num_epochs : nat) (evaluate : nat -> R) :
  exists run, train num_epochs evaluate = run ++ [SaveModel] /\ SaveModel ∉ run.
Proof.
  unfold train. eexists. split; [reflexivity|].
  generalize (seq 0 num_epochs) as epochs.
  induction epochs as [|e epochs IH]; simpl.
  - apply not_elem_of_nil.
  - destruct (Rgt_dec (evaluate e) 0); simpl;
      repeat (apply not_elem_of_cons; split; [discriminate|]); exact IH.
Qed.

(** The snapshot is taken in exactly the epochs whose score is above the
    initial value of [best_f1]. *)
Lemma train_loop_updates (evaluate : nat -> R) (best_f1 : R) (epochs : list nat) (e : nat) :
  UpdateBest e ∈ train_loop evaluate best_f1 epochs
  <-> e ∈ epochs /\ evaluate e > best_f1.
Proof.
  induction epochs as [|e0 epochs IH]; simpl.
  - rewrite !elem_of_nil. tauto.
  - rewrite !elem_of_cons, elem_of_app, IH.
    destruct (Rgt_dec (evaluate e0) best_f1) as [Hgt|Hle].
    + rewrite elem_of_cons, elem_of_nil. split.
      * intros [H|[H|[[H|[]]|H]]]; try discriminate; [injection H as ->|]; tauto.
      * intros [[->|H] Hs]; auto.
    + rewrite elem_of_nil. split.
      * intros [H|[H|[[]|H]]]; try discriminate; tauto.
      * intros [[->|H] Hs]; [contradiction | auto].
Qed.

(** C7 fails on the code.  With validation F1 0.8 in epoch 0 and 0.5 in
    epoch 1, [PlainStage1.train] takes the snapshot in both epochs, though
    0.5 does not exceed the best F1 seen before epoch 1: [best_f1] stays 0.
    The sibling loop of [EMAFixMatchStage2.train], which assigns its best
    score, takes the snapshot in epoch 0 only. *)
Theorem train_snapshots_without_improvement :
  let evaluate := fun epoch : nat => match epoch with O => 0.8 | _ => 0.5 end in
  train 2 evaluate
  = [TrainEpoch 0; Evaluate 0; UpdateBest 0;
     TrainEpoch 1; Evaluate 1; UpdateBest 1; SaveModel] /\
  ~ improves evaluate 1 /\
  fixmatch_train 2 evaluate
  = [TrainEpoch 0; Evaluate 0; UpdateBest 0; SaveEmaModel 0;
     TrainEpoch 1; Evaluate 1; SaveModel].
Proof.
  intros evaluate. split; [|split].
  - unfold train. simpl.
    destruct (Rgt_dec 0.8 0) as [_|H]; [|lra].
    destruct (Rgt_dec 0.5 0) as [_|H]; [|lra]. reflexivity.
  - unfold improves, best_before. simpl. unfold Rmax.
    destruct (Rle_dec 0.8 0); lra.
  - unfold fixmatch_train. simpl.
    destruct (Rgt_dec 0.8 0) as [_|H]; [|lra]. simpl.
    destruct (Rgt_dec 0.5 0.8) as [H|_]; [lra|]. reflexivity.
Qed.

End Stage1TrainFacts.

(** ** The imbalance reweighter (claim C8) *)

Section ReweighterFacts.
Import Tensor Reweighter.

Lemma tsum_scale (c : R) (ws : list R) :
  tsum (map (fun w => w * c) ws) = tsum ws * c.
Proof. induction ws as [|w ws IH]; simpl; [lra | rewrite IH; lra]. Qed.

Lemma tsum_pos (ws : list R) :
  ws <> [] -> Forall (fun w => 0 < w) ws -> 0 < tsum ws.
Proof.
  intros Hne Hall. induction Hall as [|w ws Hw Hall IH]; [congruence|].
  simpl. destruct ws as [|w' ws]; [simpl; lra|].
  assert (0 < tsum (w' :: ws)) by (apply IH; discriminate). lra.
Qed.

(** beta ^ n is strictly decreasing in n for beta in (0,1). *)
Lemma pow_decreasing (beta : R) (n m : nat) :
  0 < beta < 1 -> (n < m)%nat -> beta ^ m < beta ^ n.
Proof.
  intros Hb Hlt. replace m with (n + (m - n))%nat by lia. rewrite pow_add.
  assert (0 < beta ^ n) by (apply pow_lt; lra).
  assert (0 <= beta ^ (m - n) < 1) by (apply pow_lt_1_compat; [lra | lia]).
  nra.
Qed.

Lemma raw_weight_pos (beta : R) (n : nat) :
  0 < beta < 1 -> (1 <= n)%nat -> 0 < (1 - beta) / (1 - beta ^ n).
Proof.
  intros Hb Hn.
  assert (0 <= beta ^ n < 1) by (apply pow_lt_1_compat; [lra | lia]).
  apply Rdiv_lt_0_compat; lra.
Qed.

Lemma raw_weight_decreasing (beta : R) (n m : nat) :
  0 < beta < 1 -> (1 <= n)%nat -> (n < m)%nat ->
  (1 - beta) / (1 - beta ^ m) < (1 - beta) / (1 - beta ^ n).
Proof.
  intros Hb Hn Hlt.
  assert (0 <= beta ^ n < 1) by (apply pow_lt_1_compat; [lra | lia]).
  assert (beta ^ m < beta ^ n) by (now apply pow_decreasing).
  unfold Rdiv. apply Rmult_lt_compat_l; [lra|].
  apply Rinv_0_lt_contravar; lra.
Qed.

Lemma raw_weights_pos (beta : R) (counts : list nat) :
  0 < beta < 1 -> Forall (fun n => (1 <= n)%nat) counts ->
  Forall (fun w => 0 < w)
    (map (fun e => (1 - beta) / e) (map (fun n => 1 - beta ^ n) counts)).
Proof.
  intros Hb Hall. rewrite map_map. apply Forall_fmap.
  eapply Forall_impl; [exact Hall|]. simpl. intros n Hn. now apply raw_weight_pos.
Qed.

(** C8. For beta in (0,1) and counts that are all at least 1, the
    normalised weights sum to the number of classes, and of two classes
    the one with the larger count has the strictly smaller weight.  The
    code uses these weights with beta = 0.9999. *)
Theorem per_cls_weights_sum_and_order (beta : R) (counts : list nat) :
  0 < beta < 1 ->
  Forall (fun n => (1 <= n)%nat) counts ->
  tsum (per_cls_weights_for beta counts) = INR (length counts) /\
  (forall i j ni nj wi wj,
     counts !! i = Some ni -> counts !! j = Some nj ->
     per_cls_weights_for beta counts !! i = Some wi ->
     per_cls_weights_for beta counts !! j = Some wj ->
     (ni < nj)%nat -> wj < wi) /\
  per_cls_weights counts = Some (per_cls_weights_for 0.9999 counts).
Proof.
  intros Hb Hall.
  pose proof (raw_weights_pos beta counts Hb Hall) as Hpos.
  unfold per_cls_weights_for.
  set (raw := map (fun e => (1 - beta) / e) (map (fun n => 1 - beta ^ n) counts)) in *.
  assert (Hlen : length raw = length counts) by (unfold raw; now rewrite !length_map).
  split; [|split].
  - destruct counts as [|n counts]; [simpl; lra|].
    assert (HS : 0 < tsum raw) by (apply tsum_pos; [discriminate | exact Hpos]).
    rewrite (map_ext _ (fun w => w * (/ tsum raw * INR (length (n :: counts)))))
      by (intros w; unfold Rdiv; lra).
    rewrite tsum_scale. field. lra.
  - intros i j ni nj wi wj Hi Hj Hwi Hwj Hlt.
    assert (HS : 0 < tsum raw).
    { apply tsum_pos; [|exact Hpos]. intros Hnil. rewrite Hnil in Hlen.
      apply lookup_lt_Some in Hi. simpl in Hlen. lia. }
    assert (HC : 0 < INR (length counts)).
    { apply lt_0_INR. apply lookup_lt_Some in Hi. lia. }
    unfold raw in Hwi, Hwj.
    rewrite !list_lookup_fmap, Hi in Hwi. rewrite !list_lookup_fmap, Hj in Hwj.
    cbn in Hwi, Hwj. injection Hwi as <-. injection Hwj as <-.
    fold raw.
    assert (Hni : (1 <= ni)%nat).
    { rewrite Forall_forall in Hall. apply Hall. eapply list_elem_of_lookup_2; eauto. }
    pose proof (raw_weight_decreasing beta ni nj Hb Hni Hlt) as Hraw.
    apply Rmult_lt_compat_r; [exact HC|].
    unfold Rdiv at 1 3. apply Rmult_lt_compat_r; [|exact Hraw].
    now apply Rinv_0_lt_compat.
  - reflexivity.
Qed.

Lemma per_cls_weights_sum_and_order_witness :
  tsum (per_cls_weights_for 0.9999 [5; 100; 20]%nat) = INR (length [5; 100; 20]%nat) /\
  (forall i j ni nj wi wj,
     [5; 100; 20]%nat !! i = Some ni -> [5; 100; 20]%nat !! j = Some nj ->
     per_cls_weights_for 0.9999 [5; 100; 20]%nat !! i = Some wi ->
     per_cls_weights_for 0.9999 [5; 100; 20]%nat !! j = Some wj ->
     (ni < nj)%nat -> wj < wi) /\
  per_cls_weights [5; 100; 20]%nat = Some (per_cls_weights_for 0.9999 [5; 100; 20]%nat).
Proof.
  apply (per_cls_weights_sum_and_order 0.9999 [5; 100; 20]%nat).
  - lra.
  - repeat constructor; lia.
Defined.

End ReweighterFacts.

(** ** Drawing unlabeled batches (claim C9) *)

Section BatchesFacts.
Import Batches.
Context {A B : Type}.

(** With the unlabeled iterator standing at position [j] of its loader,
    [N] steps succeed when the labeled iterator holds [N] batches, and the
    k-th unlabeled batch drawn is the loader's batch (j + k) mod its
    length. *)
Lemma draw_spec (N : nat) (loader_u : list B) :
  loader_u <> [] ->
  forall (iter_l : list A) (j : nat),
  (j <= length loader_u)%nat ->
  (N <= length iter_l)%nat ->
  exists batches,
    draw N loader_u iter_l (drop j loader_u) = Some batches /\
    length batches = N /\
    forall k, (k < N)%nat ->
      exists a b,
        batches !! k = Some (a, b) /\ iter_l !! k = Some a /\
        loader_u !! ((j + k) mod length loader_u)%nat = Some b.
Proof.
  intros Hne. induction N as [|N IH]; intros iter_l j Hj HN.
  - exists []. repeat split. intros k Hk. lia.
  - destruct iter_l as [|a iter_l]; [simpl in HN; lia|]. simpl in HN.
    assert (Hlen : (0 < length loader_u)%nat)
      by (destruct loader_u; [congruence | simpl; lia]).
    assert (Hnext : exists b j',
               next_unlabeled loader_u (drop j loader_u) = Some (b, drop j' loader_u) /\
               (j' <= length loader_u)%nat /\
               loader_u !! (j mod length loader_u)%nat = Some b /\
               (j' mod length loader_u = S j mod length loader_u)%nat).
    { destruct (decide (j < length loader_u)%nat) as [Hlt|Hge].
      - destruct (lookup_lt_is_Some_2 _ _ Hlt) as [b Hb].
        exists b, (S j). rewrite (drop_S _ _ _ Hb). cbn.
        rewrite Nat.mod_small by lia. repeat split; auto.
      - assert (j = length loader_u) as -> by lia.
        rewrite drop_all. destruct loader_u as [|b rest]; [congruence|].
        exists b, 1%nat. cbn [next_unlabeled next drop]. rewrite drop_0.
        rewrite Nat.Div0.mod_same. repeat split; [simpl; lia|].
        replace (S (length (b :: rest))) with (1 + 1 * length (b :: rest))%nat by lia.
        now rewrite Nat.Div0.mod_add. }
    destruct Hnext as (b & j' & Hrun & Hj' & Hb & Hmod).
    destruct (IH iter_l j' Hj') as (batches & Hdraw & Hsize & Hall); [lia|].
    exists ((a, b) :: batches). split; [|split].
    + cbn [draw next]. cbn. rewrite Hrun. cbn. rewrite Hdraw. reflexivity.
    + simpl. now rewrite Hsize.
    + intros [|k] Hk.
      * exists a, b. rewrite Nat.add_0_r. auto.
      * destruct (Hall k) as (a' & b' & H1 & H2 & H3); [lia|].
        exists a', b'. repeat split; auto.
        replace (j + S k)%nat with (S j + k)%nat by lia.
        rewrite <- H3. f_equal.
        rewrite (Nat.Div0.add_mod j'), (Nat.Div0.add_mod (S j)), Hmod. reflexivity.
Qed.

(** C9. When the unlabeled loader is not empty and the labeled loader
    holds a batch for every step, the N steps of an epoch all obtain their
    batches: an exhausted unlabeled iterator is restarted and a batch drawn
    at once, so step k receives the labeled batch k and the unlabeled batch
    k modulo the length of the unlabeled loader, whatever the length of
    the labeled one. *)
Theorem unlabeled_batches_wrap_around (N : nat) (loader_l : list A) (loader_u : list B) :
  loader_u <> [] ->
  (N <= length loader_l)%nat ->
  exists batches,
    train_epoch_batches N loader_l loader_u = Some batches /\
    length batches = N /\
    forall k, (k < N)%nat ->
      exists a b,
        batches !! k = Some (a, b) /\ loader_l !! k = Some a /\
        loader_u !! (k mod length loader_u)%nat = Some b.
Proof.
  intros Hne HN. unfold train_epoch_batches.
  destruct (draw_spec N loader_u Hne loader_l 0%nat) as (batches & Hrun & Hlen & Hall);
    [lia | exact HN |].
  rewrite drop_0 in Hrun. exists batches. auto.
Qed.

End BatchesFacts.

Lemma unlabeled_batches_wrap_around_witness :
  exists batches,
    Batches.train_epoch_batches 5 [10; 11; 12; 13; 14; 15]%nat [20; 21]%nat = Some batches /\
    length batches = 5%nat /\
    forall k, (k < 5)%nat ->
      exists a b,
        batches !! k = Some (a, b) /\ [10; 11; 12; 13; 14; 15]%nat !! k = Some a /\
        [20; 21]%nat !! (k mod length [20; 21]%nat)%nat = Some b.
Proof.
  apply (unlabeled_batches_wrap_around 5 [10; 11; 12; 13; 14; 15]%nat [20; 21]%nat).
  - discriminate.
  - simpl. lia.
Defined.

(** ** The per-class cap of the cropped dataset (claim C10) *)

Section CCTFacts.
Import Dataset CCT.

Lemma take_indices_shift {A : Type} (x : A) (xs : list A) (ps : list nat) :
  take_indices (x :: xs) (map S ps) = take_indices xs ps.
Proof.
  unfold take_indices. induction ps as [|p ps IH]; [reflexivity|].
  cbn. now rewrite IH.
Qed.

Lemma take_indices_app {A : Type} (xs : list A) (i1 i2 : list nat) (y1 y2 : list A) :
  take_indices xs i1 = Some y1 -> take_indices xs i2 = Some y2 ->
  take_indices xs (i1 ++ i2) = Some (y1 ++ y2).
Proof.
  unfold take_indices. rewrite !mapM_Some. apply Forall2_app.
Qed.

Lemma take_indices_is_Some {A : Type} (xs : list A) (idx : list nat) :
  Forall (fun i => (i < length xs)%nat) idx -> is_Some (take_indices xs idx).
Proof.
  intros Hall. apply mapM_is_Some. eapply Forall_impl; [exact Hall|].
  simpl. intros i Hi. now apply lookup_lt_is_Some_2.
Qed.

(** Indexing the result of an indexing is indexing by the composed
    positions. *)
Lemma take_indices_compose {A : Type} (xs ys : list A) (ps idx g : list nat) :
  take_indices xs ps = Some ys ->
  take_indices ps idx = Some g ->
  take_indices ys idx = take_indices xs g.
Proof.
  intros Hys Hg. apply mapM_Some in Hys. apply mapM_Some in Hg.
  unfold take_indices. induction Hg as [|i p idx g Hp _ IH]; [reflexivity|].
  destruct (Forall2_lookup_l _ _ _ _ _ Hys Hp) as (y & Hy & Hxp).
  cbn. rewrite Hy, Hxp. cbn. now rewrite IH.
Qed.

Lemma take_indices_NoDup (ps idx g : list nat) :
  take_indices ps idx = Some g -> NoDup ps -> NoDup idx -> NoDup g.
Proof.
  intros Hg Hps Hidx. apply mapM_Some in Hg.
  induction Hg as [|i p idx g Hp Hg IH]; [constructor|].
  apply NoDup_cons in Hidx as [Hi Hidx].
  apply NoDup_cons. split; [|now apply IH].
  intros Hin. apply list_elem_of_lookup in Hin as [k Hk].
  destruct (Forall2_lookup_r _ _ _ _ _ Hg Hk) as (i' & Hi' & Hp').
  simpl in Hp, Hp'.
  assert (i = i') as <- by exact (NoDup_lookup ps i i' p Hps Hp Hp').
  apply Hi. eapply list_elem_of_lookup_2; eauto.
Qed.

Lemma take_indices_elem_of (ps idx g : list nat) :
  take_indices ps idx = Some g -> Forall (fun p => p ∈ ps) g.
Proof.
  intros Hg. apply mapM_Some in Hg.
  induction Hg as [|i p idx g Hp _ IH]; constructor; [|exact IH].
  eapply list_elem_of_lookup_2; eauto.
Qed.

Lemma take_indices_length {A : Type} (xs ys : list A) (idx : list nat) :
  take_indices xs idx = Some ys -> length ys = length idx.
Proof. intros H. symmetry. eapply length_mapM; eauto. Qed.

(** The positions of a class: distinct, all of that class, and [xs[labels
    == c]] is [xs] at these positions. *)
Lemma class_positions (labels : list nat) (c : nat) :
  exists ps : list nat,
    NoDup ps /\ Forall (fun p => labels !! p = Some c) ps /\
    forall (A : Type) (xs : list A), length xs = length labels ->
      take_indices xs ps = Some (select_where labels c xs).
Proof.
  induction labels as [|l labels (ps & Hnd & Hall & Hsel)].
  - exists []. split; [constructor|]. split; [constructor|].
    intros A [|x xs] Hlen; [reflexivity | discriminate].
  - assert (HndS : NoDup (map S ps)) by (apply NoDup_fmap; [apply _ | exact Hnd]).
    assert (HallS : Forall (fun p => (l :: labels) !! p = Some c) (map S ps))
      by (apply Forall_fmap; exact Hall).
    destruct (decide (l = c)) as [->|Hne].
    + exists (0%nat :: map S ps). split; [|split].
      * apply NoDup_cons. split; [|exact HndS].
        intros Hin. apply list_elem_of_fmap in Hin as (p & Hp & _). discriminate.
      * constructor; [reflexivity | exact HallS].
      * intros A [|x xs] Hlen; [discriminate|].
        unfold take_indices. cbn. fold (take_indices (x :: xs) (map S ps)).
        rewrite take_indices_shift, Hsel by (simpl in Hlen; lia).
        cbn. unfold select_where. cbn. rewrite decide_True by reflexivity.
        reflexivity.
    + exists (map S ps). split; [exact HndS|]. split; [exact HallS|].
      intros A [|x xs] Hlen; [discriminate|].
      rewrite take_indices_shift, Hsel by (simpl in Hlen; lia).
      unfold select_where. cbn. rewrite decide_False by exact Hne.
      reflexivity.
Qed.

Lemma select_where_length {A : Type} (labels : list nat) (c : nat) (xs : list A) :
  length xs = length labels ->
  length (select_where labels c xs) = count_of c labels.
Proof.
  revert xs. unfold select_where, count_of.
  induction labels as [|l labels IH]; intros [|x xs] Hlen; try discriminate;
    [reflexivity|].
  cbn.
  destruct (decide (l = c)); cbn; rewrite IH by (simpl in Hlen; lia); reflexivity.
Qed.

Lemma count_of_app (c : nat) (l1 l2 : list nat) :
  count_of c (l1 ++ l2) = (count_of c l1 + count_of c l2)%nat.
Proof. unfold count_of. now rewrite filter_app, length_app. Qed.

Lemma count_of_constant (c c' : nat) (l : list nat) :
  Forall (fun x => x = c) l ->
  count_of c' l = if decide (c = c') then length l else 0%nat.
Proof.
  unfold count_of. induction 1 as [|x l -> _ IH]; [now destruct (decide (c = c'))|].
  rewrite filter_cons. destruct (decide (c = c')) as [Heq|Hne]; cbn.
  - rewrite IH. reflexivity.
  - exact IH.
Qed.

(** The labels read at positions that all hold class [c]. *)
Lemma take_indices_labels (labels piece : list nat) (g : list nat) (c : nat) :
  Forall (fun p => labels !! p = Some c) g ->
  take_indices labels g = Some piece ->
  Forall (fun x => x = c) piece.
Proof.
  intros Hall Hg. apply mapM_Some in Hg.
  induction Hg as [|p x g piece Hp _ IH]; [constructor|].
  apply Forall_cons in Hall as [Hc Hall].
  constructor; [congruence | now apply IH].
Qed.

Lemma zip_with_counts (f : nat -> nat) (cs : list nat) :
  zip cs (map f cs) = map (fun c => (c, f c)) cs.
Proof. induction cs as [|c cs IH]; [reflexivity|]. cbn. now rewrite IH. Qed.

Section WithChoice.
Variable choice : nat -> nat -> nat -> list nat.
Hypothesis Hchoice : choice_ok choice.

Variables (split : nat) (d : dataset).
Hypothesis Hdata : length (data d) = length (labels d).
Hypothesis Hbbox : length (bbox d) = length (labels d).

(** One round of the loop, for class [l]: it appends to the three
    selections the entries of the three lists at one list [g] of distinct
    positions, all of class [l], min(count, split) of them. *)
Lemma split_classes_step (l : nat) :
  exists (g : list nat) piece_d piece_l piece_b,
    NoDup g /\ Forall (fun p => labels d !! p = Some l) g /\
    take_indices (data d) g = Some piece_d /\
    take_indices (labels d) g = Some piece_l /\
    take_indices (bbox d) g = Some piece_b /\
    length g = (count_of l (labels d) `min` split)%nat /\
    forall rest sel,
      split_classes choice split d ((l, count_of l (labels d)) :: rest) sel
      = split_classes choice split d rest
          {| data := data sel ++ piece_d;
             labels := labels sel ++ piece_l;
             bbox := bbox sel ++ piece_b |}.
Proof.
  destruct (class_positions (labels d) l) as (ps & Hnd & Hall & Hsel).
  pose proof (Hsel _ (data d) Hdata) as Hd.
  pose proof (Hsel _ (labels d) eq_refl) as Hl.
  pose proof (Hsel _ (bbox d) Hbbox) as Hb.
  assert (Hps : length ps = count_of l (labels d)).
  { rewrite <- (take_indices_length _ _ _ Hl). now apply select_where_length. }
  destruct (decide (split < count_of l (labels d))%nat) as [Hlt|Hge].
  - set (idx := choice l (length (select_where (labels d) l (data d))) split).
    destruct (Hchoice l (length (select_where (labels d) l (data d))) split)
      as (Hilen & Hind & Hib).
    { rewrite select_where_length by exact Hdata. lia. }
    fold idx in Hilen, Hind, Hib.
    rewrite select_where_length in Hib by exact Hdata.
    destruct (take_indices_is_Some ps idx) as [g Hg].
    { now rewrite Hps. }
    assert (Hsome : forall (A : Type) (xs : list A), length xs = length (labels d) ->
               exists piece, take_indices (select_where (labels d) l xs) idx = Some piece /\
                             take_indices xs g = Some piece).
    { intros A xs Hlen.
      destruct (take_indices_is_Some (select_where (labels d) l xs) idx) as [piece Hp].
      { now rewrite select_where_length. }
      exists piece. split; [exact Hp|].
      rewrite <- (take_indices_compose xs _ ps idx g (Hsel _ xs Hlen) Hg). exact Hp. }
    destruct (Hsome _ (data d) Hdata) as (piece_d & Hcd & Hgd).
    destruct (Hsome _ (labels d) eq_refl) as (piece_l & Hcl & Hgl).
    destruct (Hsome _ (bbox d) Hbbox) as (piece_b & Hcb & Hgb).
    exists g, piece_d, piece_l, piece_b.
    split; [eapply take_indices_NoDup; eauto|].
    split.
    { pose proof (take_indices_elem_of _ _ _ Hg) as Hin.
      rewrite Forall_forall in Hin, Hall |- *. auto. }
    repeat (split; [assumption|]).
    split.
    { rewrite (take_indices_length _ _ _ Hg), Hilen. lia. }
    intros rest sel. cbn [split_classes]. rewrite decide_True by exact Hlt.
    fold idx. rewrite Hcd, Hcl, Hcb. reflexivity.
  - exists ps, (select_where (labels d) l (data d)),
      (select_where (labels d) l (labels d)), (select_where (labels d) l (bbox d)).
    repeat (split; [assumption|]).
    split; [lia|].
    intros rest sel. cbn [split_classes]. rewrite decide_False by exact Hge.
    reflexivity.
Qed.

(** The whole loop over the classes [cs], started with selections that
    are the three lists at the positions [acc]. *)
Lemma split_classes_spec (cs : list nat) :
  forall (sel : dataset) (acc : list nat),
  NoDup cs -> NoDup acc ->
  Forall (fun p => exists c', labels d !! p = Some c' /\ c' ∉ cs) acc ->
  take_indices (data d) acc = Some (data sel) ->
  take_indices (labels d) acc = Some (labels sel) ->
  take_indices (bbox d) acc = Some (bbox sel) ->
  exists (d' : dataset) (idx : list nat),
    split_classes choice split d (map (fun c => (c, count_of c (labels d))) cs) sel
    = Some d' /\
    NoDup idx /\
    take_indices (data d) idx = Some (data d') /\
    take_indices (labels d) idx = Some (labels d') /\
    take_indices (bbox d) idx = Some (bbox d') /\
    forall c,
      count_of c (labels d')
      = (count_of c (labels sel)
         + if decide (c ∈ cs) then count_of c (labels d) `min` split else 0)%nat.
Proof.
  induction cs as [|l cs IH]; intros sel acc Hcs Hacc Hcls Hd Hl Hb.
  - exists sel, acc. repeat (split; [assumption || reflexivity|]).
    intros c. rewrite decide_False by apply not_elem_of_nil. lia.
  - apply NoDup_cons in Hcs as [Hl0 Hcs].
    destruct (split_classes_step l)
      as (g & pd & pl & pb & Hg & Hgl & Hgd & Hgl' & Hgb & Hglen & Hrun).
    destruct (IH {| data := data sel ++ pd; labels := labels sel ++ pl;
                    bbox := bbox sel ++ pb |} (acc ++ g))
      as (d' & idx & Hrun' & Hidx & Hd' & Hl' & Hb' & Hcount); cbn [data labels bbox].
    + exact Hcs.
    + apply NoDup_app. split; [exact Hacc|]. split; [|exact Hg].
      intros p Hp Hp'. rewrite Forall_forall in Hcls, Hgl.
      destruct (Hcls p Hp) as (c' & Hc' & Hnin). specialize (Hgl p Hp').
      apply Hnin. apply elem_of_cons. left. congruence.
    + apply Forall_app. split.
      * eapply Forall_impl; [exact Hcls|]. simpl. intros p (c' & Hc' & Hnin).
        exists c'. split; [exact Hc'|]. intros Hin. apply Hnin. now right.
      * eapply Forall_impl; [exact Hgl|]. simpl. intros p Hp. eauto.
    + now apply take_indices_app.
    + now apply take_indices_app.
    + now apply take_indices_app.
    + exists d', idx. cbn [map]. rewrite Hrun.
      repeat (split; [assumption|]).
      intros c. rewrite Hcount. cbn [labels]. rewrite count_of_app.
      rewrite (count_of_constant l c pl) by (eapply take_indices_labels; eauto).
      rewrite (take_indices_length _ _ _ Hgl'), Hglen.
      destruct (decide (l = c)) as [<-|Hne].
      * rewrite decide_False by exact Hl0. rewrite decide_True by left. lia.
      * destruct (decide (c ∈ cs)) as [Hin|Hnin].
        -- rewrite decide_True by (now right). lia.
        -- rewrite decide_False; [lia|].
           intros Hin. apply elem_of_cons in Hin as [->|Hin]; contradiction.
Qed.

(** C10. On a dataset with at least one sample whose three lists have one
    length, [data_split] with cap [split] returns a dataset in which every
    class has exactly min(original count, split) samples, and whose data,
    labels and bounding boxes are the original ones at one and the same
    list of distinct positions. *)
Theorem data_split_caps_every_class :
  labels d <> [] ->
  exists d' : dataset,
    data_split choice split d = Some d' /\
    (forall c, count_of c (labels d') = (count_of c (labels d) `min` split)%nat) /\
    exists idx : list nat,
      NoDup idx /\
      take_indices (data d) idx = Some (data d') /\
      take_indices (labels d) idx = Some (labels d') /\
      take_indices (bbox d) idx = Some (bbox d').
Proof.
  intros Hne.
  destruct (split_classes_spec (unique (labels d))
              {| data := []; labels := []; bbox := [] |} [])
    as (d' & idx & Hrun & Hidx & Hd' & Hl' & Hb' & Hcount);
    try reflexivity; try constructor.
  { apply NoDup_unique. }
  exists d'. split; [|split].
  - unfold data_split. rewrite decide_True by (split; assumption).
    destruct (bbox d) as [|b bs] eqn:Hb.
    { simpl in Hbbox. destruct (labels d); [congruence | discriminate]. }
    unfold unique_counts. rewrite zip_with_counts. exact Hrun.
  - intros c. rewrite Hcount. cbn.
    destruct (decide (c ∈ unique (labels d))) as [Hin|Hnin]; [reflexivity|].
    rewrite elem_of_unique, count_of_pos in Hnin. lia.
  - exists idx. auto.
Qed.

End WithChoice.
End CCTFacts.

Lemma data_split_caps_every_class_witness :
  let choice := fun (_ n k : nat) => seq 0 k in
  let d := {| CCT.data := ["a"; "b"; "c"; "d"];
              CCT.labels := [1; 0; 1; 1]%nat;
              CCT.bbox := [[0; 0; 4; 4]; [1; 1; 2; 2]; [0; 2; 3; 3]; [5; 5; 1; 1]] |} in
  exists d' : CCT.dataset,
    CCT.data_split choice 2 d = Some d' /\
    (forall c, Dataset.count_of c (CCT.labels d')
               = (Dataset.count_of c (CCT.labels d) `min` 2)%nat) /\
    exists idx : list nat,
      NoDup idx /\
      CCT.take_indices (CCT.data d) idx = Some (CCT.data d') /\
      CCT.take_indices (CCT.labels d) idx = Some (CCT.labels d') /\
      CCT.take_indices (CCT.bbox d) idx = Some (CCT.bbox d').
Proof.
  intros choice d.
  apply (data_split_caps_every_class choice).
  - intros seed n k Hk. unfold choice. rewrite length_seq.
    split; [reflexivity|]. split; [apply NoDup_seq|].
    apply Forall_forall. intros i Hi. apply elem_of_seq in Hi. lia.
  - reflexivity.
  - reflexivity.
  - discriminate.
Defined.

(** * Further properties of the code *)

(** ** Softmax and the thresholds of the confidence gate *)

Section SoftmaxFacts.
Import Tensor ConfidenceGate.

Lemma tsum_exp_pos (xs : list R) : xs <> [] -> 0 < tsum (map exp xs).
Proof.
  intros Hne. apply tsum_pos.
  - destruct xs; [congruence | discriminate].
  - apply Forall_fmap, Forall_forall. intros x _. apply exp_pos.
Qed.

Lemma softmax_lookup (xs : list R) (i : nat) (x : R) :
  xs !! i = Some x -> softmax xs !! i = Some (exp x / tsum (map exp xs)).
Proof.
  intros Hx. unfold softmax. cbn. rewrite !list_lookup_fmap, Hx. reflexivity.
Qed.

Lemma softmax_pos (xs : list R) : Forall (fun p => 0 < p) (softmax xs).
Proof.
  destruct xs as [|x0 xs]; [constructor|].
  assert (HS : 0 < tsum (map exp (x0 :: xs))) by (apply tsum_exp_pos; discriminate).
  unfold softmax. cbv zeta. apply Forall_fmap, Forall_fmap, Forall_forall.
  intros x _. simpl. apply Rdiv_lt_0_compat; [apply exp_pos | exact HS].
Qed.

Lemma softmax_sum (xs : list R) : xs <> [] -> tsum (softmax xs) = 1.
Proof.
  intros Hne. pose proof (tsum_exp_pos xs Hne) as HS. unfold softmax. cbv zeta.
  rewrite (map_ext _ (fun e => e * / tsum (map exp xs))) by (intros e; reflexivity).
  rewrite tsum_scale. field. lra.
Qed.

Lemma tsum_le_max (m : R) (l : list R) :
  Forall (fun x => x <= m) l -> tsum l <= INR (length l) * m.
Proof.
  induction 1 as [|x l Hx _ IH]; [simpl; lra|].
  cbn [length]. rewrite S_INR. simpl. lra.
Qed.

Lemma elem_le_tsum (x : R) (l : list R) :
  Forall (fun y => 0 < y) l -> x ∈ l -> x <= tsum l.
Proof.
  induction 1 as [|y l Hy Hall IH]; intros Hin; [inversion Hin|].
  assert (0 <= tsum l).
  { clear -Hall. induction Hall as [|z l Hz _ IH]; simpl; lra. }
  apply elem_of_cons in Hin as [->|Hin]; simpl; [lra|].
  specialize (IH Hin). lra.
Qed.

Lemma max_prob_in_range (row : list R) (a : Z) (m : R) :
  is_argmax (softmax row) a m ->
  1 / INR (length row) <= m /\ m <= 1.
Proof.
  intros (n & _ & Hn & Hall).
  assert (Hne : row <> []).
  { intros ->. discriminate. }
  assert (HC : 0 < INR (length row)).
  { apply lt_0_INR. destruct row; [congruence | simpl; lia]. }
  pose proof (softmax_sum row Hne) as Hsum.
  split.
  - pose proof (tsum_le_max m (softmax row) Hall) as Hle.
    rewrite Hsum, softmax_length in Hle.
    apply Rmult_le_reg_l with (r := INR (length row)); [exact HC|].
    replace (INR (length row) * (1 / INR (length row))) with 1 by (field; lra).
    exact Hle.
  - rewrite <- Hsum. apply elem_le_tsum; [apply softmax_pos|].
    eapply list_elem_of_lookup_2; eauto.
Qed.

(** X1. The largest softmax probability of a row with C classes lies
    between 1/C and 1. *)
Theorem max_prob_bounds (row : list R) (a : Z) (m : R) :
  is_argmax (softmax row) a m ->
  1 / INR (length row) <= m /\ m <= 1.
Proof. apply max_prob_in_range. Qed.

Lemma max_prob_bounds_witness :
  1 / INR (length [0; 0]) <= 1 / 2 /\ 1 / 2 <= 1.
Proof.
  apply (max_prob_bounds [0; 0] 0%Z (1 / 2)).
  exists 0%nat. rewrite softmax_two_zeros. repeat split.
  repeat constructor; lra.
Defined.

(** The gate on one row, for all thresholds at once. *)
Lemma gate_row_cases (row : list R) :
  row <> [] ->
  exists (m : R) (a : Z),
    is_argmax (softmax row) a m /\ (0 <= a)%Z /\
    forall theta, gate_row theta row = Some (if Rlt_dec m theta then (-1)%Z else a).
Proof.
  intros Hne.
  destruct (tmax_is_Some (softmax row) (softmax_nonempty _ Hne)) as [[m a] Hmax].
  pose proof (tmax_is_argmax _ _ _ Hmax) as Harg.
  exists m, a. split; [exact Harg|]. split.
  - destruct Harg as (n & -> & _). lia.
  - intros theta. unfold gate_row. rewrite Hmax. reflexivity.
Qed.

(** X2. A threshold of at most 1/C rejects nothing: on a batch whose rows
    have C >= 1 classes every prediction is a class id, never -1. *)
Theorem gate_keeps_all_at_low_threshold (theta : R) (logits : list (list R)) :
  Forall (fun row => row <> [] /\ theta <= 1 / INR (length row)) logits ->
  exists preds : list Z,
    confidence_gate theta logits = Some preds /\
    Forall (fun p => (0 <= p)%Z) preds.
Proof.
  unfold confidence_gate. induction 1 as [|row rows [Hne Hth] _ IH].
  - exists []. split; [reflexivity | constructor].
  - destruct IH as (preds & Hrun & Hall).
    destruct (gate_row_cases row Hne) as (m & a & Harg & Ha & Hgate).
    destruct (max_prob_in_range row a m Harg) as [Hlow _].
    exists (a :: preds). split.
    + cbn. rewrite (Hgate theta). destruct (Rlt_dec m theta); [lra|].
      cbn. rewrite Hrun. reflexivity.
    + constructor; assumption.
Qed.

Lemma gate_keeps_all_at_low_threshold_witness :
  exists preds : list Z,
    confidence_gate (1 / 3) [[0; 1; 5]; [2; 2]] = Some preds /\
    Forall (fun p => (0 <= p)%Z) preds.
Proof.
  apply (gate_keeps_all_at_low_threshold (1 / 3) [[0; 1; 5]; [2; 2]]).
  repeat constructor; try discriminate; simpl; lra.
Defined.

(** X3. A threshold above 1 rejects everything. *)
Theorem gate_rejects_all_above_one (theta : R) (logits : list (list R)) :
  1 < theta ->
  Forall (fun row => row <> []) logits ->
  confidence_gate theta logits = Some (replicate (length logits) (-1)%Z).
Proof.
  intros Hth. unfold confidence_gate. induction 1 as [|row rows Hne _ IH].
  - reflexivity.
  - destruct (gate_row_cases row Hne) as (m & a & Harg & Ha & Hgate).
    destruct (max_prob_in_range row a m Harg) as [_ Hhigh].
    cbn. rewrite (Hgate theta). destruct (Rlt_dec m theta); [|lra].
    cbn. rewrite IH. reflexivity.
Qed.

Lemma gate_rejects_all_above_one_witness :
  confidence_gate 2 [[0; 1; 5]; [2; 2]]
  = Some (replicate (length [[0; 1; 5]; [2; 2]]) (-1)%Z).
Proof.
  apply (gate_rejects_all_above_one 2 [[0; 1; 5]; [2; 2]]).
  - lra.
  - repeat constructor; discriminate.
Defined.

(** X4. Raising the threshold only turns predictions into -1: every
    prediction under the larger threshold is -1 or the prediction under
    the smaller one. *)
Theorem gate_monotone_in_threshold (theta1 theta2 : R) (logits : list (list R)) :
  theta1 <= theta2 ->
  Forall (fun row => row <> []) logits ->
  exists preds1 preds2 : list Z,
    confidence_gate theta1 logits = Some preds1 /\
    confidence_gate theta2 logits = Some preds2 /\
    Forall2 (fun p1 p2 => p2 = (-1)%Z \/ p2 = p1) preds1 preds2.
Proof.
  intros Hth. unfold confidence_gate. induction 1 as [|row rows Hne _ IH].
  - exists [], []. repeat split; constructor.
  - destruct IH as (p1 & p2 & H1 & H2 & Hall).
    destruct (gate_row_cases row Hne) as (m & a & _ & _ & Hgate).
    eexists (_ :: p1), (_ :: p2). split; [|split].
    + cbn. rewrite (Hgate theta1). cbn. rewrite H1. reflexivity.
    + cbn. rewrite (Hgate theta2). cbn. rewrite H2. reflexivity.
    + constructor; [|exact Hall].
      destruct (Rlt_dec m theta1), (Rlt_dec m theta2); auto. lra.
Qed.

Lemma gate_monotone_in_threshold_witness :
  exists preds1 preds2 : list Z,
    confidence_gate (1 / 2) [[0; 3]; [1; 1]] = Some preds1 /\
    confidence_gate (9 / 10) [[0; 3]; [1; 1]] = Some preds2 /\
    Forall2 (fun p1 p2 => p2 = (-1)%Z \/ p2 = p1) preds1 preds2.
Proof.
  apply (gate_monotone_in_threshold (1 / 2) (9 / 10) [[0; 3]; [1; 1]]).
  - lra.
  - repeat constructor; discriminate.
Defined.

End SoftmaxFacts.

(** ** More on the FixMatch consistency loss *)

Section FixMatchMore.
Import Tensor FixMatch.

Lemma ln_nonpos (p : R) : 0 < p <= 1 -> ln p <= 0.
Proof.
  intros [Hp [Hlt| ->]]; [|rewrite ln_1; lra].
  rewrite <- ln_1. left. now apply ln_increasing.
Qed.

Lemma xent_nonneg (rw rs : list R) (a : Z) (m : R) :
  length rw = length rs -> is_argmax (softmax rw) a m -> 0 <= xent rs a.
Proof.
  intros Hlen (n & -> & Hn & _). unfold xent. rewrite Nat2Z.id.
  apply lookup_lt_Some in Hn. rewrite softmax_length, Hlen, <- softmax_length in Hn.
  destruct (lookup_lt_is_Some_2 _ _ Hn) as [p Hp].
  rewrite (nth_lookup_Some _ _ 0 _ Hp).
  assert (Hne : rs <> []).
  { intros ->. discriminate. }
  assert (0 < p <= 1).
  { split.
    - pose proof (softmax_pos rs) as Hpos. rewrite Forall_forall in Hpos.
      apply Hpos. eapply list_elem_of_lookup_2; eauto.
    - rewrite <- (softmax_sum rs Hne). apply elem_le_tsum; [apply softmax_pos|].
      eapply list_elem_of_lookup_2; eauto. }
  pose proof (ln_nonpos p). lra.
Qed.

(** The loss in terms of the pseudo-labels the code computes. *)
Lemma consistency_loss_value (t : R) (w s : list (list R)) :
  w <> [] ->
  Forall2 (fun rw rs => rw <> [] /\ length rw = length rs) w s ->
  exists pseudo : list (R * Z),
    mapM (fun row => tmax (softmax row)) w = Some pseudo /\
    Forall2 (fun p rs => 0 <= xent rs p.2) pseudo s /\
    forall t, consistency_loss t w s = Some (masked_mean (reaches t) pseudo s).
Proof.
  intros Hne Hrows.
  destruct (loss_terms t w s Hrows) as (pseudo & _ & Hps & Harg & _ & _ & _ & _).
  exists pseudo. split; [exact Hps|]. split.
  - clear Hps Hne. revert pseudo Harg.
    induction Hrows as [|rw rs w s [_ Hlen] _ IH]; intros pseudo Harg.
    + apply Forall2_nil_inv_l in Harg as ->. constructor.
    + apply Forall2_cons_inv_l in Harg as ([m a] & rest & Ha & Hrest & ->).
      constructor; [|now apply IH]. simpl in *. eapply xent_nonneg; eauto.
  - intros t'.
    destruct (loss_terms t' w s Hrows) as (pseudo' & ce & Hps' & _ & Hce & Hl1 & Hl2 & Hzip).
    assert (pseudo' = pseudo) as -> by congruence.
    unfold consistency_loss. rewrite Hps. cbn.
    unfold cross_entropy_none.
    rewrite decide_True by (now rewrite !length_fmap with (f := snd), Hl1).
    rewrite Hce. cbn. unfold pointwise.
    rewrite decide_True
      by (unfold ge_mask; now rewrite length_map, length_fmap, Hl1, Hl2).
    cbn. rewrite Hzip. unfold masked_mean, tmean.
    assert (Hlen : length (zip_with (fun '(m, a) row =>
                      if reaches t' m then xent row a else 0) pseudo s) = length s)
      by (rewrite length_zip_with; lia).
    destruct (zip_with _ pseudo s) as [|y ys] eqn:Hz.
    + exfalso. apply Hne. apply Forall2_length in Hrows.
      simpl in Hlen. apply nil_length_inv. lia.
    + now rewrite Hlen.
Qed.

Lemma masked_sum_antitone (t1 t2 : R) (pseudo : list (R * Z)) (s : list (list R)) :
  t1 <= t2 ->
  Forall2 (fun p rs => 0 <= xent rs p.2) pseudo s ->
  0 <= tsum (zip_with (fun '(m, a) row => if reaches t2 m then xent row a else 0) pseudo s)
    <= tsum (zip_with (fun '(m, a) row => if reaches t1 m then xent row a else 0) pseudo s).
Proof.
  intros Ht. unfold tsum.
  induction 1 as [|[m a] rs pseudo s Hx _ IH]; cbn in *; [lra|].
  unfold reaches in *.
  destruct (Rge_dec m t2), (Rge_dec m t1); lra.
Qed.

(** X5. The consistency loss is never negative, and raising the FixMatch
    threshold never raises it. *)
Theorem consistency_loss_nonneg_antitone (t1 t2 : R) (w s : list (list R)) :
  w <> [] ->
  Forall2 (fun rw rs => rw <> [] /\ length rw = length rs) w s ->
  t1 <= t2 ->
  exists L1 L2 : R,
    consistency_loss t1 w s = Some L1 /\
    consistency_loss t2 w s = Some L2 /\
    0 <= L2 <= L1.
Proof.
  intros Hne Hrows Ht.
  destruct (consistency_loss_value t1 w s Hne Hrows) as (pseudo & _ & Hx & Hloss).
  eexists _, _. split; [apply Hloss|]. split; [apply Hloss|].
  unfold masked_mean.
  pose proof (masked_sum_antitone t1 t2 pseudo s Ht Hx) as [H0 H1].
  assert (HB : 0 < INR (length s)).
  { apply lt_0_INR. apply Forall2_length in Hrows.
    destruct w; [congruence | simpl in Hrows; lia]. }
  assert (Hinv : 0 < / INR (length s)) by (now apply Rinv_0_lt_compat).
  unfold Rdiv. split.
  - apply Rmult_le_pos; lra.
  - apply Rmult_le_compat_r; lra.
Qed.

Lemma consistency_loss_nonneg_antitone_witness :
  exists L1 L2 : R,
    consistency_loss (1 / 2) [[0; 0]; [3; 1]] [[1; 0]; [0; 2]] = Some L1 /\
    consistency_loss (9 / 10) [[0; 0]; [3; 1]] [[1; 0]; [0; 2]] = Some L2 /\
    0 <= L2 <= L1.
Proof.
  apply (consistency_loss_nonneg_antitone (1 / 2) (9 / 10) [[0; 0]; [3; 1]] [[1; 0]; [0; 2]]).
  - discriminate.
  - repeat constructor; discriminate.
  - lra.
Defined.

Lemma consistency_loss_length_mismatch (t : R) (w s : list (list R)) :
  length w <> length s -> consistency_loss t w s = None.
Proof.
  intros Hlen. unfold consistency_loss.
  destruct (mapM (fun row => tmax (softmax row)) w) as [pseudo|] eqn:Hps;
    [|reflexivity].
  cbn. unfold cross_entropy_none.
  rewrite decide_False; [reflexivity|].
  rewrite length_fmap, <- (length_mapM _ _ _ Hps). congruence.
Qed.

(** X6. When the rows after the labeled ones are odd in number, the two
    chunks differ in size (or there is a single one) and the step raises:
    no loss is computed. *)
Theorem step_loss_odd_split_raises (t lambda loss_l : R) (batch_size : nat)
    (logits : list (list R)) :
  Nat.Odd (length logits - batch_size) ->
  step_loss t lambda batch_size logits loss_l = None.
Proof.
  intros Hodd. unfold step_loss, chunk2. rewrite length_drop.
  destruct (decide (length logits - batch_size < 2)%nat) as [Hlt|Hge];
    [reflexivity|].
  cbn [mbind option_bind]. rewrite consistency_loss_length_mismatch; [reflexivity|].
  rewrite length_take, !length_drop.
  pose proof (Nat.Odd_div2 _ Hodd) as Hdiv.
  pose proof (Nat.Odd_double _ Hodd) as Hdbl.
  unfold Nat.double in Hdbl. lia.
Qed.

Lemma step_loss_odd_split_raises_witness :
  step_loss (1 / 2) 1 1 [[0; 1]; [1; 0]; [0; 0]; [2; 1]] 0 = None.
Proof.
  apply (step_loss_odd_split_raises (1 / 2) 1 0 1 [[0; 1]; [1; 0]; [0; 0]; [2; 1]]).
  exists 1%nat. reflexivity.
Defined.

End FixMatchMore.

(** ** More on the centroid calibration *)

Section CentroidMore.
Import Tensor Dataset Centroids.
Context {X : Type} (feature : X -> list R).

Lemma accumulate_batch_app (centroids : list (list R)) (b1 b2 : list (X * nat)) :
  accumulate_batch feature centroids (b1 ++ b2)
  = centroids' ← accumulate_batch feature centroids b1;
    accumulate_batch feature centroids' b2.
Proof.
  revert centroids. induction b1 as [|[x l] b1 IH]; intros centroids; [reflexivity|].
  cbn. destruct (accumulate centroids l (feature x)) as [c1|]; cbn; [apply IH | reflexivity].
Qed.

Lemma accumulate_loader_concat (centroids : list (list R)) (loader : list (list (X * nat))) :
  accumulate_loader feature centroids loader
  = accumulate_batch feature centroids (concat loader).
Proof.
  revert centroids. induction loader as [|b rest IH]; intros centroids; [reflexivity|].
  cbn. rewrite accumulate_batch_app.
  destruct (accumulate_batch feature centroids b) as [c1|]; cbn; [apply IH | reflexivity].
Qed.

(** X7. The centroid table depends on the examples and their order only,
    not on how the loader cuts them into batches. *)
Theorem centroids_cal_batching (num_cls feature_dim : nat)
    (loader1 loader2 : list (list (X * nat))) :
  concat loader1 = concat loader2 ->
  centroids_cal feature num_cls feature_dim loader1
  = centroids_cal feature num_cls feature_dim loader2.
Proof.
  intros Heq. unfold centroids_cal. rewrite !accumulate_loader_concat, Heq.
  reflexivity.
Qed.

Lemma accumulate_batch_length (batch : list (X * nat)) :
  forall centroids centroids',
  accumulate_batch feature centroids batch = Some centroids' ->
  length centroids' = length centroids.
Proof.
  induction batch as [|[x l] rest IH]; intros centroids centroids' Hrun; cbn in Hrun.
  - now injection Hrun as <-.
  - unfold accumulate in Hrun.
    destruct (centroids !! l) as [row|]; [|discriminate]. cbn in Hrun.
    destruct (pointwise Rplus row (feature x)) as [row'|]; [|discriminate].
    cbn in Hrun. rewrite (IH _ _ Hrun). apply length_insert.
Qed.

(** X8. When the number of classes that occur among the labels is
    neither the number of rows of the table nor 1, the division of the
    table by the counts has no result: the pass raises. *)
Theorem centroids_cal_partial_classes_raise (num_cls feature_dim : nat)
    (loader : list (list (X * nat))) :
  length (unique (concat loader).*2) <> num_cls ->
  length (unique (concat loader).*2) <> 1%nat ->
  centroids_cal feature num_cls feature_dim loader = None.
Proof.
  intros HC H1. unfold centroids_cal. rewrite accumulate_loader_concat.
  destruct (accumulate_batch feature _ (concat loader)) as [summed|] eqn:Hrun;
    [|reflexivity].
  apply accumulate_batch_length in Hrun. rewrite length_replicate in Hrun.
  cbn. unfold divide_rows.
  rewrite decide_False by (rewrite length_map; congruence).
  destruct (unique (concat loader).*2) as [|c [|c' cs]]; try reflexivity.
  simpl in H1. congruence.
Qed.

(** X9. A label that is not below the number of classes makes the pass
    raise (the row to add to does not exist). *)
Theorem centroids_cal_label_out_of_range (num_cls feature_dim : nat)
    (loader : list (list (X * nat))) (x : X) (l : nat) :
  (x, l) ∈ concat loader ->
  (num_cls <= l)%nat ->
  centroids_cal feature num_cls feature_dim loader = None.
Proof.
  intros Hin Hl. unfold centroids_cal. rewrite accumulate_loader_concat.
  assert (Hnone : forall batch centroids,
             (x, l) ∈ batch -> (length centroids <= l)%nat ->
             accumulate_batch feature centroids batch = None).
  { induction batch as [|[x' l'] rest IH]; intros centroids Hb Hlen;
      [inversion Hb|].
    cbn. destruct (accumulate centroids l' (feature x')) as [c1|] eqn:Hacc;
      [|reflexivity].
    cbn. apply elem_of_cons in Hb as [Heq|Hb].
    - injection Heq as <- <-. unfold accumulate in Hacc.
      rewrite (lookup_ge_None_2 centroids l Hlen) in Hacc.
      discriminate.
    - apply IH; [exact Hb|].
      assert (Hc1 : accumulate_batch feature centroids [(x', l')] = Some c1)
        by (cbn; now rewrite Hacc).
      apply accumulate_batch_length in Hc1. lia. }
  rewrite Hnone; [reflexivity | exact Hin | now rewrite length_replicate].
Qed.

End CentroidMore.

Lemma centroids_cal_batching_witness :
  Centroids.centroids_cal (fun v : list R => v) 2 1
    [[([1], 0%nat)]; [([2], 1%nat); ([3], 0%nat)]]
  = Centroids.centroids_cal (fun v : list R => v) 2 1
      [[([1], 0%nat); ([2], 1%nat)]; [([3], 0%nat)]].
Proof.
  apply (centroids_cal_batching (fun v : list R => v) 2 1). reflexivity.
Defined.

Lemma centroids_cal_partial_classes_raise_witness :
  Centroids.centroids_cal (fun v : list R => v) 4 1
    [[([1], 0%nat); ([2], 3%nat)]] = None.
Proof.
  apply (centroids_cal_partial_classes_raise (fun v : list R => v) 4 1).
  - vm_compute. lia.
  - vm_compute. lia.
Defined.

Lemma centroids_cal_label_out_of_range_witness :
  Centroids.centroids_cal (fun v : list R => v) 2 1
    [[([1], 0%nat); ([2], 5%nat)]] = None.
Proof.
  apply (centroids_cal_label_out_of_range (fun v : list R => v) 2 1 _ [2] 5%nat).
  - simpl. apply elem_of_cons. right. apply elem_of_cons. left. reflexivity.
  - lia.
Defined.

(** ** More on the reachability rescaling *)

Section ReachabilityMore.
Import Tensor ConfidenceGate Reachability.

Lemma exp_le_inv (x y : R) : exp x <= exp y -> x <= y.
Proof.
  intros Hle. destruct (Rle_dec x y) as [H|H]; [exact H|].
  assert (exp y < exp x) by (apply exp_increasing; lra). lra.
Qed.

(** An arg-max of the softmax of positively scaled logits is an arg-max
    of the logits themselves. *)
Lemma argmax_of_scaled (c : R) (row : list R) (a : Z) (m : R) :
  0 < c ->
  is_argmax (softmax (map (fun x => c * x) row)) a m ->
  exists (n : nat) (x : R),
    a = Z.of_nat n /\ row !! n = Some x /\ Forall (fun y => y <= x) row.
Proof.
  intros Hc (n & -> & Hn & Hall).
  assert (Hlt : (n < length row)%nat).
  { apply lookup_lt_Some in Hn. now rewrite softmax_length, length_map in Hn. }
  destruct (lookup_lt_is_Some_2 _ _ Hlt) as [x Hx].
  exists n, x. split; [reflexivity|]. split; [exact Hx|].
  assert (Hne : map (fun x => c * x) row <> []).
  { destruct row; [discriminate Hx | discriminate]. }
  pose proof (tsum_exp_pos _ Hne) as HS.
  assert (Hm : m = exp (c * x) / tsum (map exp (map (fun x => c * x) row))).
  { rewrite (softmax_lookup _ n (c * x)) in Hn by (now rewrite list_lookup_fmap, Hx).
    congruence. }
  apply Forall_forall. intros y Hy.
  apply list_elem_of_lookup in Hy as [j Hj].
  assert (Hyj : softmax (map (fun x => c * x) row) !! j
                = Some (exp (c * y) / tsum (map exp (map (fun x => c * x) row))))
    by (apply softmax_lookup; now rewrite list_lookup_fmap, Hj).
  rewrite Forall_forall in Hall.
  assert (Hle : exp (c * y) / tsum (map exp (map (fun x => c * x) row)) <= m)
    by (apply Hall; eapply list_elem_of_lookup_2; eauto).
  rewrite Hm in Hle. unfold Rdiv in Hle.
  apply Rmult_le_reg_r in Hle; [|now apply Rinv_0_lt_compat].
  apply exp_le_inv in Hle. nra.
Qed.

(** X10. With a positive reachability scale and no feature vector lying
    exactly on a centroid, the calibration changes confidences only: each
    prediction of the deployment pass is -1 or a position of a largest raw
    logit of its example. *)
Theorem deploy_predicts_raw_argmax (scale theta : R) (dim : nat)
    (centroids feats logits : list (list R)) :
  0 < scale ->
  centroids <> [] ->
  Forall (fun c => length c = dim) centroids ->
  Forall (fun f => length f = dim /\ f ∉ centroids) feats ->
  Forall2 (fun f row => row <> []) feats logits ->
  exists (out : list (list R)) (preds : list Z),
    deploy_batch scale theta centroids feats logits = Some (out, preds) /\
    Forall2 (fun row p =>
               p = (-1)%Z \/
               exists (n : nat) (x : R),
                 p = Z.of_nat n /\ row !! n = Some x /\ Forall (fun y => y <= x) row)
      logits preds.
Proof.
  intros Hscale Hne Hcs Hfs Hrows.
  assert (Hgoal : exists out preds,
             mapM (fun '(f, l) => reachability_row scale centroids f l) (zip feats logits)
             = Some out /\
             mapM (gate_row theta) out = Some preds /\
             Forall2 (fun row p =>
               p = (-1)%Z \/
               exists (n : nat) (x : R),
                 p = Z.of_nat n /\ row !! n = Some x /\ Forall (fun y => y <= x) row)
               logits preds).
  { induction Hrows as [|f row feats logits Hrow _ IH].
    - exists [], []. repeat split; constructor.
    - apply Forall_cons in Hfs as [[Hf Hnin] Hfs].
      destruct (IH Hfs) as (out & preds & Hcal & Hgate & Hall).
      destruct (reachability_row_spec scale centroids f row Hne) as (d & Hmin & Hd & Hrun);
        [|exact Hnin|].
      { eapply Forall_impl; [exact Hcs|]. simpl. intros c Hc. congruence. }
      assert (Hr : 0 < scale / d) by (now apply Rdiv_lt_0_compat).
      destruct (gate_row_cases (map (fun x => scale / d * x) row))
        as (m & a & Harg & _ & Hg).
      { destruct row; [congruence | discriminate]. }
      eexists (_ :: out), (_ :: preds). split; [|split].
      + cbn. rewrite Hrun. cbn. rewrite Hcal. reflexivity.
      + cbn. rewrite (Hg theta). cbn. rewrite Hgate. reflexivity.
      + constructor; [|exact Hall].
        destruct (Rlt_dec m theta); [now left|]. right.
        exact (argmax_of_scaled _ _ _ _ Hr Harg). }
  destruct Hgoal as (out & preds & Hcal & Hgate & Hall).
  exists out, preds. split; [|exact Hall].
  unfold deploy_batch, calibrate, confidence_gate.
  rewrite decide_True by (eapply Forall2_length; eauto).
  rewrite Hcal. cbn. rewrite Hgate. reflexivity.
Qed.

Lemma deploy_predicts_raw_argmax_witness :
  exists (out : list (list R)) (preds : list Z),
    deploy_batch 10 (1 / 2) [[0; 0]; [3; 4]] [[3; 0]] [[1; 2; 3]] = Some (out, preds) /\
    Forall2 (fun row p =>
               p = (-1)%Z \/
               exists (n : nat) (x : R),
                 p = Z.of_nat n /\ row !! n = Some x /\ Forall (fun y => y <= x) row)
      [[1; 2; 3]] preds.
Proof.
  apply (deploy_predicts_raw_argmax 10 (1 / 2) 2 [[0; 0]; [3; 4]] [[3; 0]] [[1; 2; 3]]).
  - lra.
  - discriminate.
  - repeat constructor.
  - constructor; [|constructor]. split; [reflexivity|].
    intros Hin. apply elem_of_cons in Hin as [Heq|Hin].
    + injection Heq as H. lra.
    + apply elem_of_cons in Hin as [Heq|Hin]; [injection Heq as H; lra | inversion Hin].
  - repeat constructor. discriminate.
Defined.

(** With an empty centroid table the deployment pass raises on any
    non-empty batch: there is no nearest centroid to read. *)
Theorem calibrate_without_centroids_raises (scale : R) (feats logits : list (list R)) :
  feats <> [] ->
  calibrate scale [] feats logits = None.
Proof.
  intros Hne. unfold calibrate.
  destruct (decide (length feats = length logits)) as [Hlen|]; [|reflexivity].
  destruct feats as [|f feats]; [congruence|].
  destruct logits as [|l logits]; [discriminate|]. reflexivity.
Qed.

Lemma calibrate_without_centroids_raises_witness :
  calibrate 10 [] [[3; 0]] [[1; 2; 3]] = None.
Proof.
  apply (calibrate_without_centroids_raises 10 [[3; 0]] [[1; 2; 3]]). discriminate.
Defined.

End ReachabilityMore.

(** ** More on the EMA teacher *)

Section EMAMore.
Import Tensor EMA.

(** X11. [update] writes the teacher's tensors only: every other tensor
    of the heap, the student's among them, keeps its value. *)
Theorem update_writes_teacher_only (self : ModelEMA) (model : Net) (h : list (list R)) :
  paired self model h ->
  exists h',
    update self model h = Some h' /\
    forall l, (l < length h)%nat -> l ∉ (entries (ema self)).*2 -> h' !! l = h !! l.
Proof.
  intros Hp. destruct (update_spec self model h Hp) as (h' & Hrun & Hframe & _).
  exists h'. auto.
Qed.

Lemma update_writes_teacher_only_witness :
  let student := {| has_module := false;
                    entries := [("conv1.weight", 0%nat); ("bn1.weight", 1%nat)] |} in
  let teacher := {| ema := {| has_module := false;
                              entries := [("conv1.weight", 2%nat); ("bn1.weight", 3%nat)] |};
                    decay := 0.999; wd := 0.03 * 0.0005; ema_has_module := false |} in
  let h := [[2; 4]; [1]; [0; 0]; [5]] in
  exists h',
    update teacher student h = Some h' /\
    forall l, (l < length h)%nat -> l ∉ (entries (ema teacher)).*2 -> h' !! l = h !! l.
Proof.
  intros student teacher h.
  apply (update_writes_teacher_only teacher student h).
  split; [|split].
  - cbn. compute_done.
  - cbn. compute_done.
  - cbn. constructor; [|constructor; [|constructor]].
    + exists 0%nat, [0; 0], [2; 4]. repeat split; [compute_done].
    + exists 1%nat, [5], [1]. repeat split; [compute_done].
Defined.

Lemma update_items_missing_key (d w : R) (nm : bool) (items : list (string * nat)) :
  forall (msd : gmap string nat) (h : list (list R)),
  Exists (fun it => msd !! key nm it.1 = None) items ->
  update_items d w nm items msd h = None.
Proof.
  induction items as [|[k0 l0] rest IH]; intros msd h Hex; [inversion Hex|].
  cbn [update_items].
  destruct (msd !! key nm k0) as [lm|] eqn:Hk; [|reflexivity].
  apply Exists_cons in Hex as [Hhead|Hex]; [cbn in Hhead; congruence|].
  cbn. destruct (h !! lm) as [mv|]; [|reflexivity]. cbn.
  destruct (h !! l0) as [ev|]; [|reflexivity]. cbn.
  destruct (pointwise Rplus _ _) as [new_v|]; [|reflexivity]. cbn.
  destruct (contains "bn" (key nm k0)); [now apply IH|].
  destruct (<[l0 := new_v]> h !! lm) as [cur|]; [|reflexivity]. cbn.
  apply IH. eapply Exists_impl; [exact Hex|]. simpl. intros it Hit.
  rewrite lookup_insert_ne; [exact Hit|]. congruence.
Qed.

(** X12. When the student's state dictionary lacks the name of one of
    the teacher's tensors, [update] raises. *)
Theorem update_missing_key_raises (self : ModelEMA) (model : Net) (h : list (list R)) :
  Exists (fun it =>
            state_dict model
              !! key (has_module model && negb (ema_has_module self)) it.1 = None)
    (entries (ema self)) ->
  update self model h = None.
Proof.
  intros Hex. unfold update. now rewrite update_items_missing_key.
Qed.

Lemma update_missing_key_raises_witness :
  update {| ema := {| has_module := false; entries := [("fc.weight", 1%nat)] |};
            decay := 0.999; wd := 0; ema_has_module := false |}
         {| has_module := true; entries := [("fc.weight", 0%nat)] |}
         [[1]; [1]] = None.
Proof.
  apply update_missing_key_raises. constructor. cbn. compute_done.
Defined.

Lemma moving_average_between (d : R) (ev mv : list R) :
  0 <= d <= 1 ->
  Forall2 (fun new em => Rmin em.1 em.2 <= new <= Rmax em.1 em.2)
    (moving_average d ev mv) (zip ev mv).
Proof.
  intros Hd. unfold moving_average. revert mv.
  induction ev as [|e ev IH]; intros [|m mv]; cbn; constructor; [|apply IH].
  cbn. unfold Rmin, Rmax. destruct (Rle_dec e m); nra.
Qed.

(** X13. For a decay in [0,1] the update moves the teacher towards the
    student without overshooting: every entry of a teacher tensor after
    the update lies between its old value and the student's entry. *)
Theorem ema_update_between (self : ModelEMA) (model : Net) (h : list (list R)) :
  paired self model h ->
  0 <= decay self <= 1 ->
  exists h',
    update self model h = Some h' /\
    forall k, k ∈ (entries (ema self)).*1 ->
      exists w_ema w_student w_new,
        weight h (ema self) k = Some w_ema /\
        weight h model (key (has_module model && negb (ema_has_module self)) k)
        = Some w_student /\
        weight h' (ema self) k = Some w_new /\
        Forall2 (fun new em => Rmin em.1 em.2 <= new <= Rmax em.1 em.2)
          w_new (zip w_ema w_student).
Proof.
  intros Hp Hd. destruct (update_spec self model h Hp) as (h' & Hrun & _ & Hitems).
  destruct Hp as (Hk & _ & Hall).
  exists h'. split; [exact Hrun|]. intros k Hin.
  apply list_elem_of_fmap in Hin as ([k' l] & -> & Hin). cbn.
  rewrite Forall_forall in Hall, Hitems.
  destruct (Hall _ Hin) as (lm & ev & mv & Hm & _ & Hmv & Hev & Hlen).
  specialize (Hitems _ Hin lm ev mv Hm Hmv Hev). cbn in Hm, Hev, Hitems.
  assert (Hlk : state_dict (ema self) !! k' = Some l)
    by (now apply elem_of_list_to_map_1).
  exists ev, mv, (moving_average (decay self) ev mv).
  unfold weight. rewrite Hlk, Hm. cbn.
  repeat split; auto. now apply moving_average_between.
Qed.

Lemma ema_update_between_witness :
  let student := {| has_module := false; entries := [("fc.weight", 0%nat)] |} in
  let teacher := {| ema := {| has_module := false; entries := [("fc.weight", 1%nat)] |};
                    decay := 0.999; wd := 0.03 * 0.0005; ema_has_module := false |} in
  let h := [[2; 4]; [0; 8]] in
  exists h',
    update teacher student h = Some h' /\
    forall k, k ∈ (entries (ema teacher)).*1 ->
      exists w_ema w_student w_new,
        weight h (ema teacher) k = Some w_ema /\
        weight h student (key (has_module student && negb (ema_has_module teacher)) k)
        = Some w_student /\
        weight h' (ema teacher) k = Some w_new /\
        Forall2 (fun new em => Rmin em.1 em.2 <= new <= Rmax em.1 em.2)
          w_new (zip w_ema w_student).
Proof.
  intros student teacher h.
  apply (ema_update_between teacher student h).
  - split; [|split]; cbn.
    + compute_done.
    + compute_done.
    + constructor; [|constructor].
      exists 0%nat, [0; 8], [2; 4]. repeat split; [compute_done].
  - cbn. lra.
Defined.

Lemma moving_average_same (d : R) (v : list R) : moving_average d v v = v.
Proof.
  unfold moving_average. induction v as [|x v IH]; [reflexivity|].
  cbn. f_equal; [lra | exact IH].
Qed.

(** What [__init__] builds: a teacher whose tensors are new and hold the
    values of the student's tensors of the same names. *)
Lemma init_copies (lr wdecay d : R) (model : Net) (h : list (list R)) :
  NoDup (entries model).*1 ->
  Forall (fun e => (e.2 < length h)%nat) (entries model) ->
  exists self h',
    init lr wdecay model d h = Some (self, h') /\
    paired self model h' /\
    decay self = d /\ wd self = lr * wdecay /\
    has_module model && negb (ema_has_module self) = false /\
    (entries (ema self)).*1 = (entries model).*1 /\
    forall k, k ∈ (entries model).*1 ->
      exists v, weight h model k = Some v /\ weight h' model k = Some v /\
                weight h' (ema self) k = Some v.
Proof.
  intros Hnames Hall.
  destruct (init_paired lr wdecay d model h Hnames Hall)
    as (self & h' & Hinit & Hd & Hwd & Hp & Hold).
  exists self, h'. split; [exact Hinit|]. split; [exact Hp|].
  split; [exact Hd|]. split; [exact Hwd|].
  destruct (deepcopy_entries_spec (entries model) h Hall) as (vs & Hvs & Hrun).
  unfold init in Hinit. rewrite Hrun in Hinit. cbn in Hinit.
  injection Hinit as <- <-. cbn.
  assert (Hlen : length (entries model).*1 = length (seq (length h) (length (entries model))))
    by (now rewrite length_fmap, length_seq).
  split; [now destruct (has_module model)|].
  split; [apply fst_zip; lia|].
  intros k Hin. apply list_elem_of_lookup in Hin as [i Hi].
  rewrite list_lookup_fmap in Hi.
  destruct (entries model !! i) as [[k' lm]|] eqn:He; [|discriminate].
  cbn in Hi. injection Hi as ->.
  assert (Hlm : (lm < length h)%nat).
  { rewrite Forall_forall in Hall.
    apply (Hall (k, lm)). eapply list_elem_of_lookup_2; eauto. }
  destruct (lookup_lt_is_Some_2 _ _ Hlm) as [v Hv].
  assert (Hsd : state_dict model !! k = Some lm).
  { apply elem_of_list_to_map_1; [exact Hnames|].
    eapply list_elem_of_lookup_2; eauto. }
  exists v. unfold weight. rewrite Hsd. cbn.
  split; [exact Hv|]. split; [now rewrite lookup_app_l|].
  assert (Hte : (list_to_map (zip (entries model).*1
                    (seq (length h) (length (entries model)))) : gmap string nat)
                !! k = Some (length h + i)%nat).
  { apply elem_of_list_to_map_1; [rewrite fst_zip by lia; exact Hnames|].
    apply list_elem_of_lookup. exists i. apply lookup_zip_Some. split.
    - now rewrite list_lookup_fmap, He.
    - apply lookup_seq. split; [reflexivity|]. eapply lookup_lt_Some; eauto. }
  unfold state_dict. cbn. rewrite Hte. cbn.
  rewrite lookup_app_r by lia.
  replace (length h + i - length h)%nat with i by lia.
  rewrite (Hvs i _ He). exact Hv.
Qed.

(** X14. A new teacher is a copy of its student: after [__init__] each
    teacher tensor holds the value of the student's tensor of its name,
    the student's tensors are as before, and the weight-decay factor is
    lr * wdecay. *)
Theorem init_teacher_equals_student (lr wdecay d : R) (model : Net) (h : list (list R)) :
  NoDup (entries model).*1 ->
  Forall (fun e => (e.2 < length h)%nat) (entries model) ->
  exists self h',
    init lr wdecay model d h = Some (self, h') /\
    decay self = d /\ wd self = lr * wdecay /\
    forall k, k ∈ (entries model).*1 ->
      exists v, weight h model k = Some v /\ weight h' model k = Some v /\
                weight h' (ema self) k = Some v.
Proof.
  intros Hnames Hall.
  destruct (init_copies lr wdecay d model h Hnames Hall)
    as (self & h' & Hinit & _ & Hd & Hwd & _ & _ & Hw).
  exists self, h'. auto.
Qed.

Lemma init_teacher_equals_student_witness :
  let student := {| has_module := false;
                    entries := [("conv1.weight", 0%nat); ("bn1.weight", 1%nat)] |} in
  exists self h',
    init 0.03 0.0005 student 0.999 [[2; 4]; [1]] = Some (self, h') /\
    decay self = 0.999 /\ wd self = 0.03 * 0.0005 /\
    forall k, k ∈ (entries student).*1 ->
      exists v, weight [[2; 4]; [1]] student k = Some v /\ weight h' student k = Some v /\
                weight h' (ema self) k = Some v.
Proof.
  intros student.
  apply (init_teacher_equals_student 0.03 0.0005 0.999 student [[2; 4]; [1]]).
  - cbn. compute_done.
  - cbn. repeat constructor.
Defined.

(** X15. Updating a new teacher from the student it was copied from
    changes nothing, whatever the decay: teacher and student still hold
    the same values. *)
Theorem init_then_update_is_fixed (lr wdecay d : R) (model : Net) (h : list (list R)) :
  NoDup (entries model).*1 ->
  Forall (fun e => (e.2 < length h)%nat) (entries model) ->
  exists self h' h'',
    init lr wdecay model d h = Some (self, h') /\
    update self model h' = Some h'' /\
    forall k, k ∈ (entries model).*1 ->
      exists v, weight h model k = Some v /\ weight h'' model k = Some v /\
                weight h'' (ema self) k = Some v.
Proof.
  intros Hnames Hall.
  destruct (init_copies lr wdecay d model h Hnames Hall)
    as (self & h' & Hinit & Hp & _ & _ & Hnm & Hsame & Hw).
  destruct (update_spec self model h' Hp) as (h'' & Hrun & Hframe & Hitems).
  exists self, h', h''. split; [exact Hinit|]. split; [exact Hrun|].
  intros k Hin. destruct (Hw k Hin) as (v & Hv & Hv' & Hte).
  exists v. split; [exact Hv|].
  destruct Hp as (Hk & _ & Hpall). rewrite Hnm in Hpall, Hitems.
  rewrite <- Hsame in Hin.
  apply list_elem_of_fmap in Hin as ([k' l] & -> & Hin). cbn in *.
  rewrite Forall_forall in Hpall, Hitems.
  destruct (Hpall _ Hin) as (lm & ev & mv & Hm & Hnin & Hmv & Hev & Hlen).
  specialize (Hitems _ Hin lm ev mv Hm Hmv Hev). cbn in Hm, Hev, Hitems, Hnin.
  assert (Hlk : state_dict (ema self) !! k' = Some l)
    by (now apply elem_of_list_to_map_1).
  unfold weight in *. rewrite Hm in Hv' |- *. rewrite Hlk in Hte |- *. cbn in *.
  assert (mv = v) as -> by congruence. assert (ev = v) as -> by congruence.
  split.
  - rewrite Hframe; [exact Hmv | eapply lookup_lt_Some; eauto | exact Hnin].
  - now rewrite Hitems, moving_average_same.
Qed.

Lemma init_then_update_is_fixed_witness :
  let student := {| has_module := false;
                    entries := [("conv1.weight", 0%nat); ("bn1.weight", 1%nat)] |} in
  exists self h' h'',
    init 0.03 0.0005 student 0.999 [[2; 4]; [1]] = Some (self, h') /\
    update self student h' = Some h'' /\
    forall k, k ∈ (entries student).*1 ->
      exists v, weight [[2; 4]; [1]] student k = Some v /\ weight h'' student k = Some v /\
                weight h'' (ema self) k = Some v.
Proof.
  intros student.
  apply (init_then_update_is_fixed 0.03 0.0005 0.999 student [[2; 4]; [1]]).
  - cbn. compute_done.
  - cbn. repeat constructor.
Defined.

End EMAMore.

(** ** More on the training loops *)

Section TrainMore.
Import Stage1Train.

(** X16. [PlainStage1.train] takes the snapshot in exactly the epochs
    whose validation F1 is positive (the bound it compares with is never
    raised). *)
Theorem train_updates_iff_positive (num_epochs : nat) (evaluate : nat -> R) (e : nat) :
  UpdateBest e ∈ train num_epochs evaluate
  <-> (e < num_epochs)%nat /\ evaluate e > 0.
Proof.
  unfold train. rewrite elem_of_app, train_loop_updates, elem_of_seq.
  split.
  - intros [[H1 H2]|H]; [split; [lia | exact H2]|].
    apply elem_of_cons in H as [H|H]; [discriminate | inversion H].
  - intros [H1 H2]. left. split; [lia | exact H2].
Qed.

Lemma best_before_succ (evaluate : nat -> R) (epoch : nat) :
  best_before evaluate (S epoch) = Rmax (best_before evaluate epoch) (evaluate epoch).
Proof.
  unfold best_before. rewrite seq_S, map_app. cbn [map].
  change (0 + epoch)%nat with epoch.
  generalize (map evaluate (seq 0 epoch)) as l.
  induction l as [|x l IH]; cbn.
  - apply Rmax_comm.
  - rewrite IH. now rewrite Rmax_assoc.
Qed.



End TrainMore.

(** ** More on the imbalance reweighter *)

Section ReweighterMore.
Import Tensor Reweighter.

(** X18. Every weight is positive, for beta in (0,1) and counts of at
    least 1. *)
Theorem per_cls_weights_positive (beta : R) (counts : list nat) :
  0 < beta < 1 ->
  Forall (fun n => (1 <= n)%nat) counts ->
  Forall (fun w => 0 < w) (per_cls_weights_for beta counts).
Proof.
  intros Hb Hall.
  pose proof (raw_weights_pos beta counts Hb Hall) as Hpos.
  unfold per_cls_weights_for.
  set (raw := map (fun e => (1 - beta) / e) (map (fun n => 1 - beta ^ n) counts)) in *.
  destruct counts as [|n counts]; [constructor|].
  assert (HS : 0 < tsum raw) by (apply tsum_pos; [discriminate | exact Hpos]).
  assert (HC : 0 < INR (length (n :: counts))) by (apply lt_0_INR; simpl; lia).
  apply Forall_fmap. eapply Forall_impl; [exact Hpos|]. simpl. intros w Hw.
  apply Rmult_lt_0_compat; [|exact HC]. now apply Rdiv_lt_0_compat.
Qed.

Lemma per_cls_weights_positive_witness :
  Forall (fun w => 0 < w) (per_cls_weights_for 0.9999 [5; 100; 20]%nat).
Proof.
  apply (per_cls_weights_positive 0.9999 [5; 100; 20]%nat).
  - lra.
  - repeat constructor; lia.
Defined.

Lemma tsum_replicate (n : nat) (x : R) : tsum (replicate n x) = INR n * x.
Proof.
  induction n as [|n IH]; [simpl; lra|].
  cbn [replicate]. rewrite S_INR. simpl. fold (tsum (replicate n x)). rewrite IH. lra.
Qed.

(** X19. On a balanced count vector (every class the same count) all
    weights are 1. *)
Theorem per_cls_weights_balanced (beta : R) (num_cls n : nat) :
  0 < beta < 1 ->
  (1 <= n)%nat ->
  per_cls_weights_for beta (replicate num_cls n) = replicate num_cls 1.
Proof.
  intros Hb Hn. unfold per_cls_weights_for.
  rewrite !fmap_replicate.
  destruct num_cls as [|C]; [reflexivity|].
  pose proof (raw_weight_pos beta n Hb Hn) as Hr.
  rewrite tsum_replicate, length_replicate. f_equal.
  assert (0 < INR (S C)) by (apply lt_0_INR; lia).
  assert (0 <= beta ^ n < 1) by (apply pow_lt_1_compat; [lra | lia]).
  field. repeat split; lra.
Qed.

Lemma per_cls_weights_balanced_witness :
  per_cls_weights_for 0.9999 (replicate 3 40%nat) = replicate 3 1.
Proof.
  apply (per_cls_weights_balanced 0.9999 3 40).
  - lra.
  - lia.
Defined.

End ReweighterMore.

(** ** More on drawing the batches *)

Section BatchesMore.
Import Batches.
Context {A B : Type}.

Lemma draw_labeled_exhausted (N : nat) (loader_u : list B) :
  forall (iter_l : list A) (iter_u : list B),
  (length iter_l < N)%nat -> draw N loader_u iter_l iter_u = None.
Proof.
  induction N as [|N IH]; intros iter_l iter_u Hlen; [lia|].
  destruct iter_l as [|a iter_l]; [reflexivity|]. cbn.
  destruct (next_unlabeled loader_u iter_u) as [[b iter_u']|]; [|reflexivity].
  cbn. rewrite IH by (simpl in Hlen; lia). reflexivity.
Qed.

(** X20. The labeled iterator is not restarted: when the epoch asks for
    more steps than the labeled loader has batches, the exhaustion leaves
    [train_epoch], whatever the unlabeled loader holds. *)
Theorem labeled_exhaustion_surfaces (N : nat) (loader_l : list A) (loader_u : list B) :
  (length loader_l < N)%nat ->
  train_epoch_batches N loader_l loader_u = None.
Proof. intros Hlen. now apply draw_labeled_exhausted. Qed.

(** With an empty unlabeled loader the restart finds nothing to
    draw, and the first step already raises. *)
Theorem empty_unlabeled_loader_raises (N : nat) (loader_l : list A) :
  (1 <= N)%nat ->
  train_epoch_batches N loader_l (@nil B) = None.
Proof.
  intros HN. destruct N as [|N]; [lia|]. unfold train_epoch_batches.
  destruct loader_l as [|a loader_l]; reflexivity.
Qed.

End BatchesMore.

Lemma labeled_exhaustion_surfaces_witness :
  Batches.train_epoch_batches 3 [10; 11]%nat [20; 21; 22; 23]%nat = None.
Proof.
  apply (labeled_exhaustion_surfaces 3 [10; 11]%nat [20; 21; 22; 23]%nat).
  simpl. lia.
Defined.

Lemma empty_unlabeled_loader_raises_witness :
  Batches.train_epoch_batches 2 [10; 11]%nat (@nil nat) = None.
Proof.
  apply (empty_unlabeled_loader_raises 2 [10; 11]%nat). lia.
Defined.

(** ** The evaluation forward pass of Stage 2 *)

Section Stage2EvalFacts.
Import Tensor ConfidenceGate Stage2Eval.
Context {X : Type}.
Variables ema_net net : list X -> list (list R).

(** The pass over the loader, batch by batch. *)
Lemma evaluate_forward_batches (ema ood : bool) (theta : R)
    (loader : list (list X * list Z)) :
  Forall (fun b => Forall (fun row => row <> [])
                     (if ema then ema_net b.1 else net b.1)) loader ->
  exists preds : list (list Z),
    evaluate_forward ema_net net ema ood theta loader
    = Some (preds, loader.*2, map (fun b => if ema then ema_net b.1 else net b.1) loader) /\
    Forall2 (fun b p =>
               mapM (forward_row ood theta) (if ema then ema_net b.1 else net b.1) = Some p)
      loader preds.
Proof.
  intros Hall. unfold evaluate_forward.
  induction Hall as [|[data labels] loader Hrows _ (preds & Hrun & Hp)].
  - exists []. split; [reflexivity | constructor].
  - cbn [fst] in Hrows.
    assert (Hb : is_Some (mapM (forward_row ood theta)
                            (if ema then ema_net data else net data))).
    { apply mapM_is_Some. eapply Forall_impl; [exact Hrows|]. simpl.
      intros row Hne. unfold forward_row.
      destruct (tmax_is_Some (softmax row) (softmax_nonempty _ Hne)) as [[m a] ->].
      cbn. eauto. }
    destruct Hb as [p Hb]. exists (p :: preds). split.
    + destruct (mapM _ loader) as [batches|] eqn:Hm; [|discriminate].
      cbn in Hrun. injection Hrun as H1 H2 H3.
      cbn. rewrite Hb. cbn. rewrite Hm. cbn. now rewrite H1, H2, H3.
    + constructor; [exact Hb | exact Hp].
Qed.

(** X21. Without the [ood] flag the pass never emits -1, whatever the
    threshold: every prediction is an arg-max of the softmax of its
    logits. *)
Theorem evaluate_forward_without_ood (ema : bool) (theta : R)
    (loader : list (list X * list Z)) :
  Forall (fun b => Forall (fun row => row <> [])
                     (if ema then ema_net b.1 else net b.1)) loader ->
  exists preds : list (list Z),
    evaluate_forward ema_net net ema false theta loader
    = Some (preds, loader.*2, map (fun b => if ema then ema_net b.1 else net b.1) loader) /\
    Forall2 (fun b p =>
               Forall2 (fun row pred =>
                          (0 <= pred)%Z /\ exists m, is_argmax (softmax row) pred m)
                 (if ema then ema_net b.1 else net b.1) p)
      loader preds.
Proof.
  intros Hall.
  destruct (evaluate_forward_batches ema false theta loader Hall) as (preds & Hrun & Hp).
  exists preds. split; [exact Hrun|].
  eapply Forall2_impl; [exact Hp|]. simpl. intros b p Hm.
  apply mapM_Some in Hm. eapply Forall2_impl; [exact Hm|]. simpl.
  intros row pred Hrow. unfold forward_row in Hrow.
  destruct (tmax (softmax row)) as [[m a]|] eqn:Hmax; [|discriminate].
  cbn in Hrow. injection Hrow as <-.
  pose proof (tmax_is_argmax _ _ _ Hmax) as Harg. split; [|eauto].
  destruct Harg as (n & -> & _). lia.
Qed.

(** With the [ood] flag the predictions of each batch are those of
    the Stage-1 confidence gate on the batch's logits. *)
Theorem evaluate_forward_with_ood (ema : bool) (theta : R)
    (loader : list (list X * list Z)) :
  Forall (fun b => Forall (fun row => row <> [])
                     (if ema then ema_net b.1 else net b.1)) loader ->
  exists preds : list (list Z),
    evaluate_forward ema_net net ema true theta loader
    = Some (preds, loader.*2, map (fun b => if ema then ema_net b.1 else net b.1) loader) /\
    Forall2 (fun b p =>
               confidence_gate theta (if ema then ema_net b.1 else net b.1) = Some p)
      loader preds.
Proof.
  intros Hall.
  destruct (evaluate_forward_batches ema true theta loader Hall) as (preds & Hrun & Hp).
  exists preds. split; [exact Hrun | exact Hp].
Qed.

End Stage2EvalFacts.

Lemma evaluate_forward_without_ood_witness :
  let net := fun data : list nat => map (fun x => [INR x; 1]) data in
  let loader := [([0; 2]%nat, [0; 1]%Z); ([5]%nat, [0]%Z)] in
  exists preds : list (list Z),
    Stage2Eval.evaluate_forward net net false false (1 / 2) loader
    = Some (preds, loader.*2, map (fun b => if false then net b.1 else net b.1) loader) /\
    Forall2 (fun b p =>
               Forall2 (fun row pred =>
                          (0 <= pred)%Z /\
                          exists m, Tensor.is_argmax (Tensor.softmax row) pred m)
                 (if false then net b.1 else net b.1) p)
      loader preds.
Proof.
  intros net loader.
  apply (evaluate_forward_without_ood net net false (1 / 2) loader).
  repeat constructor; discriminate.
Defined.

Lemma evaluate_forward_with_ood_witness :
  let net := fun data : list nat => map (fun x => [INR x; 1]) data in
  let loader := [([0; 2]%nat, [0; 1]%Z); ([5]%nat, [0]%Z)] in
  exists preds : list (list Z),
    Stage2Eval.evaluate_forward net net false true (1 / 2) loader
    = Some (preds, loader.*2, map (fun b => if false then net b.1 else net b.1) loader) /\
    Forall2 (fun b p =>
               ConfidenceGate.confidence_gate (1 / 2) (if false then net b.1 else net b.1)
               = Some p)
      loader preds.
Proof.
  intros net loader.
  apply (evaluate_forward_with_ood net net false (1 / 2) loader).
  repeat constructor; discriminate.
Defined.

(** ** The centroid file of the memory stage *)

Section DeployFacts.
Import Tensor Centroids Deploy.

(** Writing a table row by row and reading it back with the width of its
    rows gives the table. *)
Lemma reshape_concat (dim : nat) (table : list (list R)) :
  (0 < dim)%nat ->
  Forall (fun row => length row = dim) table ->
  reshape_rows dim (concat table) = Some table.
Proof.
  intros Hdim Hall. unfold reshape_rows.
  assert (Hlen : length (concat table) = (length table * dim)%nat).
  { induction Hall as [|row table Hrow _ IH]; [reflexivity|].
    cbn. rewrite length_app, IH, Hrow. lia. }
  rewrite decide_False by lia.
  rewrite Hlen, Nat.Div0.mod_mul, decide_True by reflexivity.
  rewrite Nat.div_mul by lia. f_equal.
  clear Hlen. induction Hall as [|row table Hrow _ IH]; [reflexivity|].
  cbn. rewrite <- Hrow at 1 3.
  now rewrite take_app_length, drop_app_length, IH.
Qed.

Context {X : Type}.
Variable feature : X -> list R.

Lemma accumulate_batch_shape (dim : nat) (batch : list (X * nat)) :
  forall centroids centroids',
  Forall (fun row => length row = dim) centroids ->
  accumulate_batch feature centroids batch = Some centroids' ->
  Forall (fun row => length row = dim) centroids'.
Proof.
  induction batch as [|[x l] rest IH]; intros centroids centroids' Hshape Hrun;
    cbn in Hrun.
  - now injection Hrun as <-.
  - unfold accumulate in Hrun.
    destruct (centroids !! l) as [row|] eqn:Hrow; [|discriminate]. cbn in Hrun.
    unfold pointwise in Hrun.
    destruct (decide (length row = length (feature x))) as [Hlen|]; [|discriminate].
    cbn in Hrun. eapply IH; [|exact Hrun].
    apply Forall_insert; [exact Hshape|].
    rewrite length_zip_with, <- Hlen, Nat.min_id.
    rewrite Forall_forall in Hshape. apply Hshape.
    eapply list_elem_of_lookup_2; eauto.
Qed.

Lemma divide_rows_shape (dim : nat) (rows rows' : list (list R)) (counts : list nat) :
  Forall (fun row => length row = dim) rows ->
  divide_rows rows counts = Some rows' ->
  Forall (fun row => length row = dim) rows'.
Proof.
  intros Hshape Hrun. unfold divide_rows in Hrun.
  assert (Hdiv : forall row n row', length row = dim -> row_div row n = Some row' ->
                                    length row' = dim).
  { intros row n row' Hlen Hd. unfold row_div in Hd.
    destruct (decide (n = 0%nat)); [discriminate|].
    injection Hd as <-. now rewrite length_map. }
  destruct (decide (length counts = length rows)) as [Hlen|_].
  - apply mapM_Some in Hrun. revert counts Hlen rows' Hrun.
    induction Hshape as [|row rows Hrow _ IH]; intros [|n counts] Hlen rows' Hrun;
      try discriminate; cbn in Hrun.
    + inversion Hrun. constructor.
    + inversion Hrun as [|? r' ? rest' Hd Hrest]; subst.
      constructor; [eapply Hdiv; eauto|].
      eapply (IH counts); [simpl in Hlen; lia | exact Hrest].
  - destruct counts as [|n [|]]; try discriminate.
    apply mapM_Some in Hrun.
    induction Hrun as [|row r' rows rows' Hd _ IH]; [constructor|].
    apply Forall_cons in Hshape as [Hrow Hshape].
    constructor; [eapply Hdiv; eauto | now apply IH].
Qed.

(** The rows of a computed centroid table have the feature width. *)
Lemma centroids_cal_shape (num_cls feature_dim : nat) (loader : list (list (X * nat)))
    (centroids : list (list R)) :
  centroids_cal feature num_cls feature_dim loader = Some centroids ->
  Forall (fun row => length row = feature_dim) centroids.
Proof.
  unfold centroids_cal. rewrite accumulate_loader_concat.
  destruct (accumulate_batch feature _ (concat loader)) as [summed|] eqn:Hacc;
    [|discriminate].
  cbn. apply divide_rows_shape.
  eapply accumulate_batch_shape; [|exact Hacc].
  apply Forall_replicate, length_replicate.
Qed.

(** X22. When no centroid file exists and the table is computed, the
    file written holds it: with a positive feature width, running the
    same lines again reads the same table back and leaves the file system
    as it is, whatever the training loader then is. *)
Theorem load_centroids_reuses_saved_table (path : string)
    (num_cls feature_dim : nat) (trainloader trainloader' : list (list (X * nat)))
    (fs fs' : gmap string (list R)) (centroids : list (list R)) :
  (0 < feature_dim)%nat ->
  fs !! path = None ->
  load_centroids feature path num_cls feature_dim trainloader fs = Some (centroids, fs') ->
  load_centroids feature path num_cls feature_dim trainloader' fs' = Some (centroids, fs').
Proof.
  intros Hdim Hnone Hrun. unfold load_centroids in *.
  rewrite Hnone in Hrun.
  destruct (centroids_cal feature num_cls feature_dim trainloader) as [c|] eqn:Hcal;
    [|discriminate].
  cbn in Hrun. injection Hrun as <- <-.
  rewrite lookup_insert_eq.
  rewrite (reshape_concat feature_dim c Hdim (centroids_cal_shape _ _ _ _ Hcal)).
  reflexivity.
Qed.

End DeployFacts.

Lemma load_centroids_reuses_saved_table_witness :
  let feature := fun v : list R => v in
  exists centroids fs',
    Deploy.load_centroids feature "w_centroids.npy" 2 2
      [[([2; 0], 0%nat); ([4; 2], 0%nat)]; [([1; 1], 1%nat)]] ∅ = Some (centroids, fs') /\
    Deploy.load_centroids feature "w_centroids.npy" 2 2 [] fs' = Some (centroids, fs').
Proof.
  intros feature.
  assert (Hrun : is_Some (Deploy.load_centroids feature "w_centroids.npy" 2 2
                            [[([2; 0], 0%nat); ([4; 2], 0%nat)]; [([1; 1], 1%nat)]] ∅)).
  { eexists. reflexivity. }
  destruct Hrun as [[centroids fs'] Hrun].
  exists centroids, fs'. split; [exact Hrun|].
  apply (load_centroids_reuses_saved_table feature "w_centroids.npy" 2 2
           [[([2; 0], 0%nat); ([4; 2], 0%nat)]; [([1; 1], 1%nat)]] [] ∅ fs' centroids).
  - lia.
  - reflexivity.
  - exact Hrun.
Defined.

(** ** Loading and reading the cropped dataset *)

Section CCTLoadFacts.
Import Dataset CCT CCTLoad.

Lemma append_entries_spec (ci : gmap nat nat) (anns : list annotation) :
  forall d : dataset,
  Forall (fun e => is_Some (ci !! category_id e))
    (filter (fun e => is_Some (ann_bbox e)) anns) ->
  exists (ls : list nat) (bs : list (list R)),
    Forall2 (fun e l => ci !! category_id e = Some l)
      (filter (fun e => is_Some (ann_bbox e)) anns) ls /\
    Forall2 (fun e b => ann_bbox e = Some b)
      (filter (fun e => is_Some (ann_bbox e)) anns) bs /\
    append_entries ci anns d
    = Some {| data := data d ++ map image_id (filter (fun e => is_Some (ann_bbox e)) anns);
              labels := labels d ++ ls;
              bbox := bbox d ++ bs |}.
Proof.
  induction anns as [|e anns IH]; intros d Hall.
  - exists [], []. repeat split; try constructor.
    cbn. rewrite !app_nil_r. now destruct d.
  - rewrite filter_cons in Hall |- *. cbn [append_entries].
    destruct (ann_bbox e) as [b|] eqn:Hb.
    + rewrite decide_True in Hall |- * by eauto.
      apply Forall_cons in Hall as [[l Hl] Hall].
      destruct (IH {| data := data d ++ [image_id e]; labels := labels d ++ [l];
                      bbox := bbox d ++ [b] |} Hall) as (ls & bs & Hls & Hbs & Hrun).
      exists (l :: ls), (b :: bs). split; [now constructor|].
      split; [now constructor|].
      rewrite Hl. cbn. rewrite Hrun. cbn. now rewrite <- !app_assoc.
    + rewrite decide_False in Hall |- * by (intros [? ?]; discriminate).
      apply IH, Hall.
Qed.

Lemma load_data_spec (ci : gmap nat nat) (ann_js : list annotation) :
  Forall (fun e => is_Some (ci !! category_id e)) (loadable ann_js) ->
  exists d : dataset,
    load_data ci ann_js {| data := []; labels := []; bbox := [] |} = Some d /\
    data d = map image_id (loadable ann_js) /\
    Forall2 (fun e l => ci !! category_id e = Some l) (loadable ann_js) (labels d) /\
    Forall2 (fun e b => ann_bbox e = Some b) (loadable ann_js) (bbox d).
Proof.
  intros Hall. unfold load_data, loadable in *.
  destruct (append_entries_spec ci (filter kept ann_js)
              {| data := []; labels := []; bbox := [] |} Hall)
    as (ls & bs & Hls & Hbs & Hrun).
  eexists. split; [exact Hrun|]. cbn. auto.
Qed.

(** X23. When every annotation that is loaded (category neither 30 nor
    33, with a bounding box) has its category among the class indices,
    [load_data] succeeds; image ids, mapped labels and boxes are those of
    the loaded annotations, in order, so the three lists have one
    length. *)
Theorem load_data_loads_mapped_annotations (ci : gmap nat nat) (ann_js : list annotation) :
  Forall (fun e => is_Some (ci !! category_id e)) (loadable ann_js) ->
  exists d : dataset,
    load_data ci ann_js {| data := []; labels := []; bbox := [] |} = Some d /\
    data d = map image_id (loadable ann_js) /\
    Forall2 (fun e l => ci !! category_id e = Some l) (loadable ann_js) (labels d) /\
    Forall2 (fun e b => ann_bbox e = Some b) (loadable ann_js) (bbox d) /\
    length (data d) = length (labels d) /\ length (bbox d) = length (labels d).
Proof.
  intros Hall.
  destruct (load_data_spec ci ann_js Hall) as (d & Hrun & Hd & Hl & Hb).
  exists d. repeat split; auto.
  - rewrite Hd, length_map. eapply Forall2_length; eauto.
  - rewrite <- (Forall2_length _ _ _ Hb). eapply Forall2_length; eauto.
Qed.

Lemma append_entries_unmapped (ci : gmap nat nat) (anns : list annotation) :
  forall d : dataset,
  Exists (fun e => ci !! category_id e = None)
    (filter (fun e => is_Some (ann_bbox e)) anns) ->
  append_entries ci anns d = None.
Proof.
  induction anns as [|e anns IH]; intros d Hex; [inversion Hex|].
  rewrite filter_cons in Hex. cbn [append_entries].
  destruct (ann_bbox e) as [b|] eqn:Hb.
  - rewrite decide_True in Hex by eauto.
    apply Exists_cons in Hex as [Hnone|Hex].
    + now rewrite Hnone.
    + destruct (ci !! category_id e); [cbn; now apply IH | reflexivity].
  - rewrite decide_False in Hex by (intros [? ?]; discriminate).
    now apply IH.
Qed.

(** X24. A loaded annotation whose category is not among the class
    indices fails the assertion of [load_data]. *)
Theorem load_data_unmapped_category_raises (ci : gmap nat nat)
    (ann_js : list annotation) (d : dataset) :
  Exists (fun e => ci !! category_id e = None) (loadable ann_js) ->
  load_data ci ann_js d = None.
Proof. intros Hex. unfold load_data. now apply append_entries_unmapped. Qed.

(** X25. After a successful load, [__getitem__] at a position below the
    number of loaded annotations reads the image id, the mapped label and
    the crop box (x, y, x + w, y + h) of the annotation at that position;
    at any other position it raises. *)
Theorem getitem_reads_loaded_annotation (ci : gmap nat nat) (ann_js : list annotation) :
  Forall (fun e => is_Some (ci !! category_id e)) (loadable ann_js) ->
  exists d : dataset,
    load_data ci ann_js {| data := []; labels := []; bbox := [] |} = Some d /\
    (forall i e x y w h,
       loadable ann_js !! i = Some e -> ann_bbox e = Some [x; y; w; h] ->
       exists label,
         ci !! category_id e = Some label /\
         getitem_entry d i = Some (image_id e, label, (x, y, x + w, y + h))) /\
    (forall i, (length (loadable ann_js) <= i)%nat -> getitem_entry d i = None).
Proof.
  intros Hall.
  destruct (load_data_spec ci ann_js Hall) as (d & Hrun & Hd & Hl & Hb).
  exists d. split; [exact Hrun|]. split.
  - intros i e x y w h He Hbox.
    destruct (Forall2_lookup_l _ _ _ _ _ Hl He) as (label & Hlabel & Hci).
    destruct (Forall2_lookup_l _ _ _ _ _ Hb He) as (b & Hbi & Hbe).
    exists label. split; [exact Hci|].
    unfold getitem_entry. rewrite Hd, list_lookup_fmap, He, Hlabel, Hbi. cbn.
    assert (b = [x; y; w; h]) as -> by congruence. reflexivity.
  - intros i Hi. unfold getitem_entry.
    rewrite Hd, list_lookup_fmap, (lookup_ge_None_2 _ _ Hi). reflexivity.
Qed.

(** X26. [ImageOps.expand] with the border of [__getitem__] pads the crop
    to a square up to one pixel: the longer side is kept and the other
    side becomes equal to it or one pixel short. *)
Theorem expanded_size_nearly_square (w h : nat) :
  let size' := expanded_size (w, h) in
  Nat.max size'.1 size'.2 = Nat.max w h /\
  (Nat.max w h <= size'.1 + 1)%nat /\ (Nat.max w h <= size'.2 + 1)%nat.
Proof.
  unfold expanded_size, expand_border. cbn [fst snd].
  pose proof (Nat.div_mod_eq (Nat.max w h - w) 2) as Hw.
  pose proof (Nat.div_mod_eq (Nat.max w h - h) 2) as Hh.
  pose proof (Nat.mod_upper_bound (Nat.max w h - w) 2) as Hw2.
  pose proof (Nat.mod_upper_bound (Nat.max w h - h) 2) as Hh2.
  destruct (Nat.max_spec w h) as [[Hlt Hm]|[Hle Hm]]; rewrite Hm in *.
  - rewrite Nat.sub_diag in *. cbn [Nat.div] in *. change (0 / 2)%nat with 0%nat in *. lia.
  - rewrite Nat.sub_diag in *. change (0 / 2)%nat with 0%nat in *. lia.
Qed.

End CCTLoadFacts.

Lemma load_data_loads_mapped_annotations_witness :
  let ci : gmap nat nat := {[ 1%nat := 0%nat; 7%nat := 1%nat ]} in
  let ann_js := [ {| CCTLoad.image_id := "a"; CCTLoad.category_id := 7;
                     CCTLoad.ann_bbox := Some [0; 0; 4; 2] |};
                  {| CCTLoad.image_id := "b"; CCTLoad.category_id := 30;
                     CCTLoad.ann_bbox := Some [1; 1; 2; 2] |};
                  {| CCTLoad.image_id := "c"; CCTLoad.category_id := 9;
                     CCTLoad.ann_bbox := None |};
                  {| CCTLoad.image_id := "d"; CCTLoad.category_id := 1;
                     CCTLoad.ann_bbox := Some [3; 3; 1; 5] |} ] in
  exists d : CCT.dataset,
    CCTLoad.load_data ci ann_js {| CCT.data := []; CCT.labels := []; CCT.bbox := [] |}
    = Some d /\
    CCT.data d = map CCTLoad.image_id (CCTLoad.loadable ann_js) /\
    Forall2 (fun e l => ci !! CCTLoad.category_id e = Some l)
      (CCTLoad.loadable ann_js) (CCT.labels d) /\
    Forall2 (fun e b => CCTLoad.ann_bbox e = Some b) (CCTLoad.loadable ann_js) (CCT.bbox d) /\
    length (CCT.data d) = length (CCT.labels d) /\
    length (CCT.bbox d) = length (CCT.labels d).
Proof.
  intros ci ann_js.
  apply (load_data_loads_mapped_annotations ci ann_js).
  repeat constructor; eexists; reflexivity.
Defined.

Lemma load_data_unmapped_category_raises_witness :
  CCTLoad.load_data ({[ 1%nat := 0%nat ]} : gmap nat nat)
    [ {| CCTLoad.image_id := "a"; CCTLoad.category_id := 7;
         CCTLoad.ann_bbox := Some [0; 0; 4; 2] |} ]
    {| CCT.data := []; CCT.labels := []; CCT.bbox := [] |} = None.
Proof.
  apply load_data_unmapped_category_raises.
  constructor. reflexivity.
Defined.

Lemma getitem_reads_loaded_annotation_witness :
  let ci : gmap nat nat := {[ 1%nat := 0%nat; 7%nat := 1%nat ]} in
  let ann_js := [ {| CCTLoad.image_id := "a"; CCTLoad.category_id := 7;
                     CCTLoad.ann_bbox := Some [0; 0; 4; 2] |};
                  {| CCTLoad.image_id := "d"; CCTLoad.category_id := 1;
                     CCTLoad.ann_bbox := Some [3; 3; 1; 5] |} ] in
  exists d : CCT.dataset,
    CCTLoad.load_data ci ann_js {| CCT.data := []; CCT.labels := []; CCT.bbox := [] |}
    = Some d /\
    (forall i e x y w h,
       CCTLoad.loadable ann_js !! i = Some e -> CCTLoad.ann_bbox e = Some [x; y; w; h] ->
       exists label,
         ci !! CCTLoad.category_id e = Some label /\
         CCTLoad.getitem_entry d i = Some (CCTLoad.image_id e, label, (x, y, x + w, y + h))) /\
    (forall i, (length (CCTLoad.loadable ann_js) <= i)%nat -> CCTLoad.getitem_entry d i = None).
Proof.
  intros ci ann_js.
  apply (getitem_reads_loaded_annotation ci ann_js).
  repeat constructor; eexists; reflexivity.
Defined.

(** ** More on the per-class cap *)

Section CCTSplitMore.
Import Dataset CCT CCTLoad.

Lemma constant_is_replicate (c : nat) (l : list nat) :
  Forall (fun x => x = c) l -> l = replicate (length l) c.
Proof. induction 1 as [|x l -> _ IH]; [reflexivity|]. cbn. now rewrite <- IH. Qed.

Section WithChoice.
Variable choice : nat -> nat -> nat -> list nat.
Hypothesis Hchoice : choice_ok choice.
Variables (split : nat) (d : dataset).
Hypothesis Hdata : length (data d) = length (labels d).
Hypothesis Hbbox : length (bbox d) = length (labels d).

(** The loop builds the labels class by class, one block per class, and
    keeps the three selections at one length. *)
Lemma split_classes_blocks (cs : list nat) :
  forall sel : dataset,
  length (data sel) = length (labels sel) ->
  length (bbox sel) = length (labels sel) ->
  exists d' : dataset,
    split_classes choice split d (map (fun c => (c, count_of c (labels d))) cs) sel
    = Some d' /\
    labels d'
    = labels sel
      ++ concat (map (fun c => replicate (count_of c (labels d) `min` split)%nat c) cs) /\
    length (data d') = length (labels d') /\
    length (bbox d') = length (labels d').
Proof.
  induction cs as [|l cs IH]; intros sel Hd Hb.
  - exists sel. cbn. rewrite app_nil_r. auto.
  - destruct (split_classes_step choice Hchoice split d Hdata Hbbox l)
      as (g & pd & pl & pb & _ & Hgl & Hgd & Hgl' & Hgb & Hglen & Hrun).
    assert (Hpl : pl = replicate (count_of l (labels d) `min` split)%nat l).
    { rewrite <- Hglen, <- (take_indices_length _ _ _ Hgl').
      apply constant_is_replicate. eapply take_indices_labels; eauto. }
    destruct (IH {| data := data sel ++ pd; labels := labels sel ++ pl;
                    bbox := bbox sel ++ pb |}) as (d' & Hrun' & Hlab & Hd' & Hb').
    { cbn. rewrite !length_app, Hd, (take_indices_length _ _ _ Hgd),
        (take_indices_length _ _ _ Hgl'). reflexivity. }
    { cbn. rewrite !length_app, Hb, (take_indices_length _ _ _ Hgb),
        (take_indices_length _ _ _ Hgl'). reflexivity. }
    exists d'. cbn [map]. rewrite Hrun. split; [exact Hrun'|].
    split; [|auto]. rewrite Hlab. cbn. rewrite Hpl. now rewrite <- app_assoc.
Qed.

(** What [data_split] returns, from the loop lemmas. *)
Lemma data_split_spec :
  labels d <> [] ->
  exists d' : dataset,
    data_split choice split d = Some d' /\
    labels d'
    = concat (map (fun c => replicate (count_of c (labels d) `min` split)%nat c)
                (unique (labels d))) /\
    length (data d') = length (labels d') /\
    length (bbox d') = length (labels d') /\
    forall c, count_of c (labels d') = (count_of c (labels d) `min` split)%nat.
Proof.
  intros Hne.
  destruct (split_classes_blocks (unique (labels d))
              {| data := []; labels := []; bbox := [] |} eq_refl eq_refl)
    as (d' & Hrun & Hlab & Hd' & Hb').
  destruct (split_classes_spec choice Hchoice split d Hdata Hbbox (unique (labels d))
              {| data := []; labels := []; bbox := [] |} [])
    as (d'' & idx & Hrun'' & _ & _ & _ & _ & Hcount);
    try reflexivity; try constructor.
  { apply NoDup_unique. }
  assert (d'' = d') as -> by congruence.
  exists d'. split.
  - unfold data_split. rewrite decide_True by (split; assumption).
    destruct (bbox d) as [|b bs] eqn:Hb.
    { simpl in Hbbox. destruct (labels d); [congruence | discriminate]. }
    unfold unique_counts. rewrite zip_with_counts. exact Hrun.
  - split; [exact Hlab|]. split; [exact Hd'|]. split; [exact Hb'|].
    intros c. rewrite Hcount. cbn.
    destruct (decide (c ∈ unique (labels d))) as [Hin|Hnin]; [reflexivity|].
    rewrite elem_of_unique, count_of_pos in Hnin. lia.
Qed.

(** X27. [data_split] regroups the dataset: the labels of the result are
    the classes in increasing order, each in one block of min(count,
    split) equal labels, and data, labels and boxes keep one length. *)
Theorem data_split_groups_by_class :
  labels d <> [] ->
  exists d' : dataset,
    data_split choice split d = Some d' /\
    labels d'
    = concat (map (fun c => replicate (count_of c (labels d) `min` split)%nat c)
                (unique (labels d))) /\
    length (data d') = length (labels d') /\
    length (bbox d') = length (labels d').
Proof.
  intros Hne. destruct (data_split_spec Hne) as (d' & H1 & H2 & H3 & H4 & _).
  exists d'. auto.
Qed.

End WithChoice.

(** X28. A cropped dataset built with a cap: when the loaded annotations
    are all mapped and there is at least one, the constructor succeeds,
    every class keeps min(loaded count, cap) samples, and the three lists
    have one length. *)
Theorem init_crop_caps_every_class (choice : nat -> nat -> nat -> list nat)
    (ci : gmap nat nat) (s : nat) (ann_js : list annotation) :
  choice_ok choice ->
  Forall (fun e => is_Some (ci !! category_id e)) (loadable ann_js) ->
  loadable ann_js <> [] ->
  exists d0 d' : dataset,
    load_data ci ann_js {| data := []; labels := []; bbox := [] |} = Some d0 /\
    init_crop choice ci (Some s) ann_js = Some d' /\
    (forall c, count_of c (labels d') = (count_of c (labels d0) `min` s)%nat) /\
    length (data d') = length (labels d') /\
    length (bbox d') = length (labels d').
Proof.
  intros Hchoice Hall Hne.
  destruct (load_data_spec ci ann_js Hall) as (d0 & Hrun & Hd & Hl & Hb).
  assert (Hlen1 : length (data d0) = length (labels d0)).
  { rewrite Hd, length_map. eapply Forall2_length; eauto. }
  assert (Hlen2 : length (bbox d0) = length (labels d0)).
  { rewrite <- (Forall2_length _ _ _ Hb). eapply Forall2_length; eauto. }
  assert (Hne0 : labels d0 <> []).
  { intros Hnil. apply Hne. apply Forall2_length in Hl. rewrite Hnil in Hl.
    now apply nil_length_inv. }
  destruct (data_split_spec choice Hchoice s d0 Hlen1 Hlen2 Hne0)
    as (d' & Hsplit & _ & H3 & H4 & Hcount).
  exists d0, d'. split; [exact Hrun|]. split; [|auto].
  unfold init_crop. rewrite Hrun. exact Hsplit.
Qed.

(** X29. When no annotation is loaded, the constructor without a cap
    returns the empty dataset, and the constructor with a cap raises (the
    empty box array has no second dimension). *)
Theorem init_crop_nothing_loaded (choice : nat -> nat -> nat -> list nat)
    (ci : gmap nat nat) (s : nat) (ann_js : list annotation) :
  loadable ann_js = [] ->
  init_crop choice ci None ann_js = Some {| data := []; labels := []; bbox := [] |} /\
  init_crop choice ci (Some s) ann_js = None.
Proof.
  intros Hnil.
  destruct (load_data_spec ci ann_js) as (d0 & Hrun & Hd & Hl & Hb).
  { rewrite Hnil. constructor. }
  rewrite Hnil in Hd, Hl, Hb. cbn in Hd.
  apply Forall2_nil_inv_l in Hl. apply Forall2_nil_inv_l in Hb.
  destruct d0 as [dd dl db]. cbn in Hd, Hl, Hb. subst.
  unfold init_crop. rewrite Hrun. split; reflexivity.
Qed.

End CCTSplitMore.

Lemma data_split_groups_by_class_witness :
  let choice := fun (_ n k : nat) => seq 0 k in
  let d := {| CCT.data := ["a"; "b"; "c"; "d"];
              CCT.labels := [1; 0; 1; 1]%nat;
              CCT.bbox := [[0; 0; 4; 4]; [1; 1; 2; 2]; [0; 2; 3; 3]; [5; 5; 1; 1]] |} in
  exists d' : CCT.dataset,
    CCT.data_split choice 2 d = Some d' /\
    CCT.labels d'
    = concat (map (fun c => replicate (Dataset.count_of c (CCT.labels d) `min` 2)%nat c)
                (Dataset.unique (CCT.labels d))) /\
    length (CCT.data d') = length (CCT.labels d') /\
    length (CCT.bbox d') = length (CCT.labels d').
Proof.
  intros choice d.
  apply (data_split_groups_by_class choice).
  - intros seed n k Hk. unfold choice. rewrite length_seq.
    split; [reflexivity|]. split; [apply NoDup_seq|].
    apply Forall_forall. intros i Hi. apply elem_of_seq in Hi. lia.
  - reflexivity.
  - reflexivity.
  - discriminate.
Defined.

Lemma init_crop_caps_every_class_witness :
  let choice := fun (_ n k : nat) => seq 0 k in
  let ci : gmap nat nat := {[ 1%nat := 0%nat; 7%nat := 1%nat ]} in
  let ann_js := [ {| CCTLoad.image_id := "a"; CCTLoad.category_id := 7;
                     CCTLoad.ann_bbox := Some [0; 0; 4; 2] |};
                  {| CCTLoad.image_id := "b"; CCTLoad.category_id := 7;
                     CCTLoad.ann_bbox := Some [1; 1; 2; 2] |};
                  {| CCTLoad.image_id := "d"; CCTLoad.category_id := 1;
                     CCTLoad.ann_bbox := Some [3; 3; 1; 5] |} ] in
  exists d0 d' : CCT.dataset,
    CCTLoad.load_data ci ann_js {| CCT.data := []; CCT.labels := []; CCT.bbox := [] |}
    = Some d0 /\
    CCTLoad.init_crop choice ci (Some 1%nat) ann_js = Some d' /\
    (forall c, Dataset.count_of c (CCT.labels d')
               = (Dataset.count_of c (CCT.labels d0) `min` 1)%nat) /\
    length (CCT.data d') = length (CCT.labels d') /\
    length (CCT.bbox d') = length (CCT.labels d').
Proof.
  intros choice ci ann_js.
  apply (init_crop_caps_every_class choice ci 1 ann_js).
  - intros seed n k Hk. unfold choice. rewrite length_seq.
    split; [reflexivity|]. split; [apply NoDup_seq|].
    apply Forall_forall. intros i Hi. apply elem_of_seq in Hi. lia.
  - repeat constructor; eexists; reflexivity.
  - discriminate.
Defined.

Lemma init_crop_nothing_loaded_witness :
  let choice := fun (_ n k : nat) => seq 0 k in
  let ann_js := [ {| CCTLoad.image_id := "b"; CCTLoad.category_id := 30;
                     CCTLoad.ann_bbox := Some [1; 1; 2; 2] |};
                  {| CCTLoad.image_id := "c"; CCTLoad.category_id := 9;
                     CCTLoad.ann_bbox := None |} ] in
  CCTLoad.init_crop choice ∅ None ann_js
  = Some {| CCT.data := []; CCT.labels := []; CCT.bbox := [] |} /\
  CCTLoad.init_crop choice ∅ (Some 3%nat) ann_js = None.
Proof.
  intros choice ann_js.
  apply (init_crop_nothing_loaded choice ∅ 3 ann_js). reflexivity.
Defined.

(** ** The training loop of the margin-loss stage *)

Section LDAMTrainFacts.
Import Stage1Train LDAMTrain.

Lemma best_before_bounds (evaluate : nat -> R) (a : nat) :
  0 <= best_before evaluate a /\
  forall e, (e < a)%nat -> evaluate e <= best_before evaluate a.
Proof.
  induction a as [|a [IH0 IH]].
  - split; [unfold best_before; simpl; lra | intros e He; lia].
  - rewrite best_before_succ. split.
    + pose proof (Rmax_l (best_before evaluate a) (evaluate a)). lra.
    + intros e He. destruct (decide (e = a)) as [->|Hne].
      * apply Rmax_r.
      * pose proof (Rmax_l (best_before evaluate a) (evaluate a)).
        specialize (IH e ltac:(lia)). lra.
Qed.

Lemma train_loop_tracks (counts : list nat) (soft : bool) (evaluate : nat -> R) (k : nat) :
  forall (a : nat) (best_acc : R) (best_epoch : nat),
  tracked evaluate a best_acc best_epoch ->
  tracked evaluate (a + k)
    (train_loop counts soft evaluate best_acc best_epoch (seq a k)).2.1
    (train_loop counts soft evaluate best_acc best_epoch (seq a k)).2.2.
Proof.
  induction k as [|k IH]; intros a best_acc best_epoch Ht.
  - cbn. now rewrite Nat.add_0_r.
  - cbn [seq train_loop].
    replace (a + S k)%nat with (S a + k)%nat by lia.
    destruct Ht as (Hbest & Hpos & Hzero).
    destruct (best_before_bounds evaluate a) as [H0 Hle].
    pose proof (best_before_succ evaluate a) as Hsucc.
    destruct (Rgt_dec (evaluate a) best_acc) as [Hgt|Hngt].
    + destruct (train_loop counts soft evaluate (evaluate a) a (seq (S a) k))
        as [evs final] eqn:Hloop.
      cbn [snd]. change final with (evs, final).2. rewrite <- Hloop. apply IH.
      split; [|split].
      * rewrite Hsucc, <- Hbest. unfold Rmax.
        destruct (Rle_dec best_acc (evaluate a)); lra.
      * intros _. split; [lia|]. split; [reflexivity|].
        intros e He. specialize (Hle e He). lra.
      * intros Hneg. lra.
    + destruct (train_loop counts soft evaluate best_acc best_epoch (seq (S a) k))
        as [evs final] eqn:Hloop.
      cbn [snd]. change final with (evs, final).2. rewrite <- Hloop. apply IH.
      split; [|split].
      * rewrite Hsucc, <- Hbest. unfold Rmax.
        destruct (Rle_dec best_acc (evaluate a)); lra.
      * intros Hp. destruct (Hpos Hp) as (H1 & H2 & H3). split; [lia | auto].
      * exact Hzero.
Qed.

(** X30. [LDAMSemiStage2.train] ends with [best_acc] equal to the largest
    validation accuracy of the run (or 0 when none is positive) and with
    [best_epoch] the first epoch that reached it (epoch 0 when none is
    positive). *)
Theorem ldam_train_tracks_best (counts : list nat) (soft : bool) (num_epochs : nat)
    (evaluate : nat -> R) :
  let best_acc := (train counts soft num_epochs evaluate).2.1 in
  let best_epoch := (train counts soft num_epochs evaluate).2.2 in
  best_acc = best_before evaluate num_epochs /\
  (best_acc > 0 ->
   (best_epoch < num_epochs)%nat /\ evaluate best_epoch = best_acc /\
   forall e, (e < best_epoch)%nat -> evaluate e < best_acc) /\
  (best_acc <= 0 -> best_epoch = 0%nat).
Proof.
  unfold train.
  pose proof (train_loop_tracks counts soft evaluate num_epochs 0 0 0%nat) as Ht.
  destruct (train_loop counts soft evaluate 0 0%nat (seq 0 num_epochs)) as [evs final].
  cbn in Ht |- *. apply Ht.
  split; [reflexivity|]. split; [intros H; lra | reflexivity].
Qed.

End LDAMTrainFacts.
